(** * xoverlay: the rendering pipeline of [main.go]

    A shallow embedding of the parts of [main.go] that decide the
    behaviour of the viewer: the aspect fit and the opacity mask of
    [RenderImage], the pixel packing loop, the shared-memory transfer
    with its deferred cleanups, the event handler, the debounced
    renderer loop, [Close] and [main].

    Go's [float64] is IEEE 754 binary64.  It is modelled by the
    rational it denotes (plus the infinities and NaN), every operation
    being the exact result rounded to nearest, ties to even, on the
    binary64 grid.  The model is compared with the binary64 numbers of
    the kernel on ranges of inputs ([Machine]). *)

From Stdlib Require Import ZArith QArith Qround Qpower Qabs Qreduction.
From Stdlib Require Import Lia Lqa List Bool String.
From Stdlib Require Import PrimFloat SpecFloat FloatOps Uint63.
Import ListNotations.

(** ** Binary64 arithmetic *)

Module F64.

Local Open Scope Q_scope.

(** Powers of two with an integer exponent. *)
Definition pow2 (z : Z) : Q := 2 ^ z.

(** [ilog2 x] is the binary exponent of a positive rational:
    [2^(ilog2 x) <= x < 2^(ilog2 x + 1)]. *)
Definition ilog2 (x : Q) : Z :=
  let k := (Z.log2 (Qnum x) - Z.log2 (Zpos (Qden x)))%Z in
  if Qle_bool (pow2 k) x then k else (k - 1)%Z.

(** Round to the nearest integer, ties to the even one. *)
Definition rne (y : Q) : Z :=
  let f := Qfloor y in
  match Qcompare (y - inject_Z f) (1 # 2) with
  | Lt => f
  | Gt => (f + 1)%Z
  | Eq => if Z.even f then f else (f + 1)%Z
  end.

(** Exponent of the last place: 53 significant bits, subnormals on the
    grid [2^-1074]. *)
Definition fexp (x : Q) : Z := Z.max (ilog2 x - 52) (-1074).

Inductive f64 : Type :=
| NaN
| Inf (neg : bool)
| Fin (q : Q).

Definition fneg (a : f64) : f64 :=
  match a with
  | NaN => NaN
  | Inf s => Inf (negb s)
  | Fin q => Fin (Qred (- q))
  end.

(** Rounding to the multiples of [2^s]. *)
Definition rgrid (s : Z) (x : Q) : Q := inject_Z (rne (x / pow2 s)) * pow2 s.

(** Rounding of a positive rational to 53 significant bits. *)
Definition rnd (x : Q) : Q := rgrid (fexp x) x.

(** Overflow gives the infinity. *)
Definition round_pos (x : Q) : f64 :=
  let r := rnd x in
  if Qle_bool (pow2 1024) r then Inf false else Fin (Qred r).

Definition round64 (x : Q) : f64 :=
  match Qcompare x 0 with
  | Eq => Fin 0
  | Gt => round_pos x
  | Lt => fneg (round_pos (- x))
  end.

Definition is_neg (q : Q) : bool := negb (Qle_bool 0 q).
Definition is_zero (q : Q) : bool := Qeq_bool q 0.

(** [x * y] on float64. *)
Definition fmul (a b : f64) : f64 :=
  match a, b with
  | NaN, _ | _, NaN => NaN
  | Inf s, Inf t => Inf (xorb s t)
  | Inf s, Fin q | Fin q, Inf s =>
      if is_zero q then NaN else Inf (xorb s (is_neg q))
  | Fin p, Fin q => round64 (p * q)
  end.

(** [x / y] on float64.  The zero of the model is the positive zero: no
    negative number is ever produced by the program. *)
Definition fdiv (a b : f64) : f64 :=
  match a, b with
  | NaN, _ | _, NaN => NaN
  | Inf _, Inf _ => NaN
  | Inf s, Fin q => Inf (xorb s (is_neg q))
  | Fin _, Inf _ => Fin 0
  | Fin p, Fin q =>
      if is_zero q then (if is_zero p then NaN else Inf (is_neg p))
      else round64 (p / q)
  end.

(** [x > y] on float64: false as soon as one side is NaN. *)
Definition fgt (a b : f64) : bool :=
  match a, b with
  | NaN, _ | _, NaN => false
  | Inf s, Inf t => negb s && t
  | Inf s, Fin _ => negb s
  | Fin _, Inf t => t
  | Fin p, Fin q => negb (Qle_bool p q)
  end.

(** [float64(n)] for an integer [n]. *)
Definition of_int (n : Z) : f64 := round64 (inject_Z n).

(** Truncation toward zero. *)
Definition Qtrunc (q : Q) : Z :=
  if Qle_bool 0 q then Qfloor q else Qceiling q.

(** [int(x)]: the fraction is discarded.  The conversion of a value that
    does not fit the target type is implementation-defined in Go; the
    model returns [None] there. *)
Definition to_int (a : f64) : option Z :=
  match a with
  | Fin q =>
      let t := Qtrunc q in
      if ((- 2 ^ 63 <=? t) && (t <? 2 ^ 63))%Z then Some t else None
  | _ => None
  end.

(** [uint8(x)]. *)
Definition to_uint8 (a : f64) : option Z :=
  match a with
  | Fin q =>
      let t := Qtrunc q in
      if ((0 <=? t) && (t <? 256))%Z then Some t else None
  | _ => None
  end.

(** The value of a kernel binary64 number, to compare the model with. *)
Definition of_prim (x : float) : f64 :=
  match Prim2SF x with
  | S754_zero _ => Fin 0
  | S754_infinity s => Inf s
  | S754_nan => NaN
  | S754_finite s m e =>
      Fin (Qred ((if s then - (1) else 1) * inject_Z (Zpos m) * pow2 e))
  end.

End F64.

Import F64.

(** ** The render pass: aspect fit and opacity mask ([RenderImage]) *)

Module Render.

(** The fitted rectangle: the size of the scaled frame and where
    [PutImage] places it in the window. *)
Record rect : Type := mkRect
  { width : Z; height : Z; xOffset : Z; yOffset : Z }.

(** [aspect := float64(originalBounds.Dx()) / float64(originalBounds.Dy())] *)
Definition aspect (srcW srcH : Z) : f64 := fdiv (of_int srcW) (of_int srcH).

(** [newAspect := float64(width) / float64(height)] *)
Definition newAspect (geomW geomH : Z) : f64 := fdiv (of_int geomW) (of_int geomH).

(** The fit of [RenderImage].  [geomW] and [geomH] are the window sizes
    of the geometry reply, [srcW] and [srcH] the sizes of the image.
    [int(x)] discards the fraction; [/] on [int] is the truncated
    quotient [Z.quot]. *)
Definition fit (srcW srcH geomW geomH : Z) : option rect :=
  let a := aspect srcW srcH in
  if fgt (newAspect geomW geomH) a then
    match to_int (fmul a (of_int geomH)) with
    | Some newWidth =>
        Some (mkRect newWidth geomH (Z.quot (geomW - newWidth) 2) 0)
    | None => None
    end
  else
    match to_int (fdiv (of_int geomW) a) with
    | Some newHeight =>
        Some (mkRect geomW newHeight 0 (Z.quot (geomH - newHeight) 2))
    | None => None
    end.

(** [const fullAlpha = 255] *)
Definition fullAlpha : f64 := Fin 255.

(** [alpha := uint8(fullAlpha * display.imageOpacity)], the alpha of the
    uniform mask. *)
Definition maskAlpha (imageOpacity : f64) : option Z :=
  to_uint8 (fmul fullAlpha imageOpacity).

(** Modelled from the spec: the compositor [draw.NearestNeighbor.Scale]
    of golang.org/x/image/draw is a dependency and not part of the
    sources.  "Apply a uniform alpha mask: every output pixel's alpha
    channel is multiplied by" the mask alpha: the 8-bit alpha of an output
    pixel whose source pixel has alpha [srcA], drawn through a mask of
    alpha [m] on the fresh transparent frame. *)
Definition maskedAlpha (srcA m : Z) : Z := (srcA * m / 255)%Z.

(** The spec's rounding to the nearest integer. *)
Definition round_nearest (q : Q) : Z := Qfloor (q + (1 # 2))%Q.

End Render.

(** ** The packing loop of [RenderImage] *)

Module Pack.

(** [color.RGBA]: four 8-bit channels. *)
Record RGBA : Type := mkRGBA { R : Z; G : Z; B : Z; A : Z }.

Definition is_uint8 (v : Z) : Prop := (0 <= v < 256)%Z.

Definition valid (c : RGBA) : Prop :=
  is_uint8 (R c) /\ is_uint8 (G c) /\ is_uint8 (B c) /\ is_uint8 (A c).

(** [color.RGBA.RGBA()] widens a channel [c] to 16 bits: [c | c << 8]. *)
Definition widen (c : Z) : Z := Z.lor c (Z.shiftl c 8).

Definition RGBA_method (c : RGBA) : Z * Z * Z * Z :=
  (widen (R c), widen (G c), widen (B c), widen (A c)).

(** [byte(v)] of a [uint32]: the low eight bits. *)
Definition byte (v : Z) : Z := Z.land v 255.

(** The body of the inner loop: the four bytes appended for one pixel. *)
Definition pack_pixel (c : RGBA) : list Z :=
  let '(r, g, b, a) := RGBA_method c in
  [byte b; byte g; byte r; byte a].

(** [for i := 0; i < n; i += 1] *)
Definition range (n : Z) : list Z := map Z.of_nat (seq 0 (Z.to_nat n)).

(** The two nested loops, appending to [data]. *)
Definition pack_image (img : Z -> Z -> RGBA) (width height : Z) : list Z :=
  fold_left
    (fun data y =>
       fold_left (fun data x => data ++ pack_pixel (img x y)) (range width) data)
    (range height) [].

(** The pixels of the frame in the order the loops visit them. *)
Definition pixels (img : Z -> Z -> RGBA) (width height : Z) : list RGBA :=
  flat_map (fun y => map (fun x => img x y) (range width)) (range height).

(** The inverse the claim speaks of: four bytes read as blue, green,
    red, alpha. *)
Definition unpack_pixel (b0 b1 b2 b3 : Z) : RGBA := mkRGBA b2 b1 b0 b3.

Fixpoint unpack_image (data : list Z) : list RGBA :=
  match data with
  | b0 :: b1 :: b2 :: b3 :: rest => unpack_pixel b0 b1 b2 b3 :: unpack_image rest
  | _ => []
  end.

End Pack.

(** ** The shared-memory transfer of [RenderImage] and its defers *)

Module Transfer.

Local Open Scope string_scope.

(** The calls of lines 344-411, in the order of the source, then the
    three deferred ones. *)
Inductive call : Type :=
| SysvShmGet
| SysvShmAttach
| CopyBytes
| NewSegId
| AttachChecked
| PutImageChecked
| DetachChecked
| SysvShmDetach
| SysvShmCtlRmid.

(** What the outside answers to a call: [None] for success, [Some e] for
    the error [e].  For [CopyBytes] an error stands for [n != size]. *)
Definition world : Type := call -> option string.

(** What exists after a call: the OS segment, the mapping into the
    process and the handle of the server, which is the server's own
    attachment to the segment. *)
Record resources : Type := mkRes
  { segment : bool; mapping : bool; handle : bool }.

Record tstate : Type := mkT
  { trace : list call; stdout : list string; res : resources }.

(** The effect of a call that succeeds.  [IPC_RMID] only marks the
    segment: the system frees it once nothing is attached to it, so at
    the removal it is gone when neither the process nor the server is
    still attached, and it stays otherwise.  The removal is the last
    call of every transfer: no detach follows it. *)
Definition effect (c : call) (r : resources) : resources :=
  match c with
  | SysvShmGet => mkRes true (mapping r) (handle r)
  | SysvShmAttach => mkRes (segment r) true (handle r)
  | AttachChecked => mkRes (segment r) (mapping r) true
  | DetachChecked => mkRes (segment r) (mapping r) false
  | SysvShmDetach => mkRes (segment r) false (handle r)
  | SysvShmCtlRmid =>
      mkRes (segment r && (mapping r || handle r)) (mapping r) (handle r)
  | CopyBytes | NewSegId | PutImageChecked => r
  end.

(** One call: it is recorded, and it takes effect when it succeeds. *)
Definition do_call (w : world) (c : call) (st : tstate) : option string * tstate :=
  match w c with
  | Some e => (Some e, mkT (trace st ++ [c]) (stdout st) (res st))
  | None => (None, mkT (trace st ++ [c]) (stdout st) (effect c (res st)))
  end.

(** The line a deferred function prints when its call fails. *)
Definition cleanup_message (c : call) : string :=
  match c with
  | SysvShmCtlRmid => "destroy shared memmory segment: "
  | SysvShmDetach => "detach from shared memory segment: "
  | _ => "detach from shared memory (X): "
  end.

(** A deferred function: the call, and [fmt.Println] of its error. *)
Definition run_deferred (w : world) (st : tstate) (c : call) : tstate :=
  match do_call w c st with
  | (Some e, st') =>
      mkT (trace st') (stdout st' ++ [cleanup_message c ++ e]) (res st')
  | (None, st') => st'
  end.

(** The deferred functions run when the function returns, last
    registered first; [defers] holds them in that order. *)
Definition unwind (w : world) (defers : list call) (st : tstate) : tstate :=
  fold_left (run_deferred w) defers st.

Definition start : tstate := mkT [] [] (mkRes false false false).

(** Lines 344-413.  The result is fixed by the [return] statement; the
    deferred functions run after it and have no access to it. *)
Definition transfer (w : world) : option string * tstate :=
  match do_call w SysvShmGet start with
  | (Some e, st) => (Some ("create shared memory segment: " ++ e), unwind w [] st)
  | (None, st) =>
  let defers := [SysvShmCtlRmid] in
  match do_call w SysvShmAttach st with
  | (Some e, st) =>
      (Some ("attach to shared memory segment: " ++ e), unwind w defers st)
  | (None, st) =>
  let defers := SysvShmDetach :: defers in
  match do_call w CopyBytes st with
  | (Some e, st) => (Some ("copy failed, " ++ e), unwind w defers st)
  | (None, st) =>
  match do_call w NewSegId st with
  | (Some e, st) => (Some ("new segment id: " ++ e), unwind w defers st)
  | (None, st) =>
  match do_call w AttachChecked st with
  | (Some e, st) =>
      (Some ("attach to shared memory segment (X): " ++ e), unwind w defers st)
  | (None, st) =>
  let defers := DetachChecked :: defers in
  match do_call w PutImageChecked st with
  | (Some e, st) => (Some ("put image: " ++ e), unwind w defers st)
  | (None, st) => (None, unwind w defers st)
  end end end end end end.

(** The six calls that decide the result, with the prefix of the error
    each one returns. *)
Definition steps : list (call * string) :=
  [ (SysvShmGet, "create shared memory segment: ");
    (SysvShmAttach, "attach to shared memory segment: ");
    (CopyBytes, "copy failed, ");
    (NewSegId, "new segment id: ");
    (AttachChecked, "attach to shared memory segment (X): ");
    (PutImageChecked, "put image: ") ].

(** The calls that are made: up to the first failing step. *)
Fixpoint attempted (w : world) (l : list (call * string)) : list call :=
  match l with
  | [] => []
  | (c, _) :: rest =>
      c :: match w c with
           | Some _ => []
           | None => attempted w rest
           end
  end.

(** The setup calls that succeeded before the first failing step. *)
Fixpoint completed (w : world) (l : list (call * string)) : list call :=
  match l with
  | [] => []
  | (c, _) :: rest =>
      match w c with
      | Some _ => []
      | None => c :: completed w rest
      end
  end.

(** The error of the first failing step. *)
Fixpoint first_error (w : world) (l : list (call * string)) : option string :=
  match l with
  | [] => None
  | (c, prefix) :: rest =>
      match w c with
      | Some e => Some (prefix ++ e)
      | None => first_error w rest
      end
  end.

(** The cleanup that undoes a setup call. *)
Definition cleanup_of (c : call) : list call :=
  match c with
  | SysvShmGet => [SysvShmCtlRmid]
  | SysvShmAttach => [SysvShmDetach]
  | AttachChecked => [DetachChecked]
  | _ => []
  end.

Definition is_cleanup (c : call) : bool :=
  match c with
  | DetachChecked | SysvShmDetach | SysvShmCtlRmid => true
  | _ => false
  end.

(** The lines the deferred functions print: one for each cleanup that
    fails. *)
Definition cleanup_lines (w : world) (cleanups : list call) : list string :=
  flat_map (fun c => match w c with
                     | Some e => [cleanup_message c ++ e]
                     | None => []
                     end) cleanups.

(** Two worlds that answer the six steps alike. *)
Definition same_steps (w1 w2 : world) : Prop :=
  forall c, is_cleanup c = false -> w1 c = w2 c.

End Transfer.

(** ** The event handler ([HandleEvents]) and [requestRedraw] *)

Module Events.

(** [time.Millisecond], times being counted in nanoseconds. *)
Definition ms : Z := 1000000.

(** The bookkeeping fields of [ImageWindow]. *)
Record ImageWindow : Type := mkWin
  { imageOpacity : f64;
    windowWidth : Z;
    windowHeight : Z;
    nextRedraw : Z;
    dirty : bool }.

(** [requestRedraw], [now] being [time.Now()]. *)
Definition requestRedraw (now : Z) (d : ImageWindow) : ImageWindow :=
  mkWin (imageOpacity d) (windowWidth d) (windowHeight d) (now + 50 * ms) true.

(** What [WaitForEvent] returns: an event, an error, or neither. *)
Inductive xevent : Type :=
| ConfigureNotifyEvent (Width Height : Z)
| ButtonPressEvent (EventX : Z)
| DestroyNotifyEvent
| OtherEvent
| XError
| Nothing.

(** The fields are [uint16] and [int16] in the protocol. *)
Definition well_formed (ev : xevent) : Prop :=
  match ev with
  | ConfigureNotifyEvent w h => (0 <= w < 65536 /\ 0 <= h < 65536)%Z
  | ButtonPressEvent x => (- 32768 <= x < 32768)%Z
  | _ => True
  end.

(** [x := min(display.windowWidth, max(0, int(event.EventX)))] *)
Definition clampedX (d : ImageWindow) (EventX : Z) : Z :=
  Z.min (windowWidth d) (Z.max 0 EventX).

(** One turn of the loop of [HandleEvents]: [inl d'] to go on with
    [d'], [inr r] when the function returns [r]. *)
Definition handle (now : Z) (ev : xevent) (d : ImageWindow)
  : ImageWindow + option string :=
  match ev with
  | Nothing => inr (Some "got no event but err is nil, exiting"%string)
  | ConfigureNotifyEvent w h =>
      if negb (windowWidth d =? w)%Z || negb (windowHeight d =? h)%Z then
        inl (requestRedraw now
               (mkWin (imageOpacity d) w h (nextRedraw d) (dirty d)))
      else inl d
  | ButtonPressEvent ex =>
      let x := clampedX d ex in
      inl (requestRedraw now
             (mkWin (fdiv (of_int x) (of_int (windowWidth d)))
                    (windowWidth d) (windowHeight d) (nextRedraw d) (dirty d)))
  | DestroyNotifyEvent => inr None
  | OtherEvent | XError => inl d
  end.

(** The loop on the events that arrive, each with the time at which it
    is handled: the state it leaves, and the result once it returned. *)
Fixpoint HandleEvents (evs : list (Z * xevent)) (d : ImageWindow)
  : ImageWindow * option (option string) :=
  match evs with
  | [] => (d, None)
  | (now, ev) :: rest =>
      match handle now ev d with
      | inl d' => HandleEvents rest d'
      | inr r => (d, Some r)
      end
  end.

(** [loadImage] and [NewImageWindow]: the state before the first event.
    [run] has clamped the opacity: [min(1.0, max(0.0, initialOpacity))]. *)
Definition initial (opacity : f64) (imgW imgH : Z) : ImageWindow :=
  mkWin opacity imgW imgH 0 false.

(** A resize notification that reports a width of at least one pixel,
    as every window of the X protocol has. *)
Definition nonzero_width (ev : xevent) : Prop :=
  match ev with
  | ConfigureNotifyEvent w _ => (1 <= w)%Z
  | _ => True
  end.

(** An opacity that is a number of [[0,1]]. *)
Definition unit_interval (a : f64) : Prop :=
  match a with
  | Fin q => (0 <= q /\ q <= 1)%Q
  | _ => False
  end.

End Events.

(** ** The renderer goroutine, [requestRedraw] and [Close], interleaved *)

Module Sched.

Import Events.

(** Where the goroutine of [startRenderer] stands. *)
Inductive rpc : Type :=
| RStart                               (* created, before [wg.Add(1)] *)
| RSelect                              (* at the [select] *)
| RSleep (wake : Z)                    (* in [time.Sleep(5ms)] *)
| RRead                                (* before the first locked block *)
| RCheck (d : bool) (next : Z)         (* before the [if], with its locals *)
| RClear                               (* before the second locked block *)
| RRender                              (* calling [RenderImage] *)
| RTransfer                            (* in [RenderImage], before [PutImage] *)
| RDone                                (* returned, before [wg.Done()] *)
| RExit.

(** Where the main goroutine stands: in the event loop, or in [Close]. *)
Inductive mpc : Type :=
| MRunning
| MCancelled                           (* after [cancelRenderer()] *)
| MConnClosed                          (* after [conn.Close()] *)
| MClosed.                             (* after [wg.Wait()] *)

Record state : Type := mkState
  { clock : Z;
    win : ImageWindow;
    cancelled : bool;
    connOpen : bool;
    wg : Z;
    renderer : rpc;
    main : mpc;
    requests : list Z;                 (* times of the [requestRedraw] calls *)
    passes : list Z;                   (* times at which [RenderImage] was called *)
    uses : list (Z * bool) }.          (* requests of a pass on the connection:
                                           the time, and whether it was open *)

Inductive label : Type :=
| Tick (d : Z)                         (* time passes *)
| Request                              (* the main goroutine calls [requestRedraw] *)
| Cancel                               (* [Close]: [display.cancelRenderer()] *)
| ConnClose                            (* [Close]: [display.conn.Close()] *)
| Wait                                 (* [Close]: [display.wg.Wait()] returns *)
| Renderer.                            (* the renderer goroutine moves on *)

Definition set_win (s : state) (w : ImageWindow) : state :=
  mkState (clock s) w (cancelled s) (connOpen s) (wg s) (renderer s) (main s)
          (requests s) (passes s) (uses s).

Definition set_renderer (s : state) (r : rpc) : state :=
  mkState (clock s) (win s) (cancelled s) (connOpen s) (wg s) r (main s)
          (requests s) (passes s) (uses s).

Definition clear_dirty (w : ImageWindow) : ImageWindow :=
  mkWin (imageOpacity w) (windowWidth w) (windowHeight w) (nextRedraw w) false.

(** One step of the goroutine of [startRenderer]. *)
Definition renderer_step (s : state) : option state :=
  match renderer s with
  | RStart =>
      Some (mkState (clock s) (win s) (cancelled s) (connOpen s) (wg s + 1)
                    RSelect (main s) (requests s) (passes s) (uses s))
  | RSelect =>
      if cancelled s then Some (set_renderer s RDone)
      else Some (set_renderer s (RSleep (clock s + 5 * ms)))
  | RSleep wake =>
      if (wake <=? clock s)%Z then Some (set_renderer s RRead) else None
  | RRead =>
      Some (set_renderer s (RCheck (dirty (win s)) (nextRedraw (win s))))
  | RCheck d next =>
      if d && (next <? clock s)%Z then Some (set_renderer s RClear)
      else Some (set_renderer s RSelect)
  | RClear =>
      Some (set_renderer (set_win s (clear_dirty (win s))) RRender)
  | RRender =>
      Some (mkState (clock s) (win s) (cancelled s) (connOpen s) (wg s)
                    RTransfer (main s) (requests s)
                    (clock s :: passes s) ((clock s, connOpen s) :: uses s))
  | RTransfer =>
      Some (mkState (clock s) (win s) (cancelled s) (connOpen s) (wg s)
                    RSelect (main s) (requests s)
                    (passes s) ((clock s, connOpen s) :: uses s))
  | RDone =>
      Some (mkState (clock s) (win s) (cancelled s) (connOpen s) (wg s - 1)
                    RExit (main s) (requests s) (passes s) (uses s))
  | RExit => None
  end.

(** One step of the whole program; [None] when the step is not enabled. *)
Definition step (l : label) (s : state) : option state :=
  match l with
  | Tick d =>
      if (0 <=? d)%Z then
        Some (mkState (clock s + d) (win s) (cancelled s) (connOpen s) (wg s)
                      (renderer s) (main s) (requests s) (passes s) (uses s))
      else None
  | Request =>
      match main s with
      | MRunning =>
          Some (mkState (clock s) (requestRedraw (clock s) (win s)) (cancelled s)
                        (connOpen s) (wg s) (renderer s) (main s)
                        (clock s :: requests s) (passes s) (uses s))
      | _ => None
      end
  | Cancel =>
      match main s with
      | MRunning =>
          Some (mkState (clock s) (win s) true (connOpen s) (wg s) (renderer s)
                        MCancelled (requests s) (passes s) (uses s))
      | _ => None
      end
  | ConnClose =>
      match main s with
      | MCancelled =>
          Some (mkState (clock s) (win s) (cancelled s) false (wg s) (renderer s)
                        MConnClosed (requests s) (passes s) (uses s))
      | _ => None
      end
  | Wait =>
      match main s with
      | MConnClosed =>
          if (wg s =? 0)%Z then
            Some (mkState (clock s) (win s) (cancelled s) (connOpen s) (wg s)
                          (renderer s) MClosed (requests s) (passes s) (uses s))
          else None
      | _ => None
      end
  | Renderer => renderer_step s
  end.

(** A schedule, step after step. *)
Fixpoint run (ls : list label) (s : state) : option state :=
  match ls with
  | [] => Some s
  | l :: rest =>
      match step l s with
      | Some s' => run rest s'
      | None => None
      end
  end.

(** After [NewImageWindow]: the goroutine exists, nothing is requested. *)
Definition init (w : ImageWindow) : state :=
  mkState 0 w false true 0 RStart MRunning [] [] [].

(** What [Close] has done so far, and what the wait group counts. *)
Definition consistent (s : state) : Prop :=
  wg s = match renderer s with
         | RStart | RExit => 0%Z
         | _ => 1%Z
         end /\
  match main s with
  | MRunning => cancelled s = false /\ connOpen s = true
  | MCancelled => cancelled s = true /\ connOpen s = true
  | MConnClosed => cancelled s = true /\ connOpen s = false
  | MClosed =>
      cancelled s = true /\ connOpen s = false /\
      match renderer s with
      | RStart | RSelect | RDone | RExit => True
      | _ => False
      end
  end.

(** What the renderer keeps: the deadline of a pending redraw, the
    deadline a poll has read and the time of every pass follow a request
    by 50ms. *)
Definition served (s : state) : Prop :=
  (dirty (win s) = true ->
   exists r, In r (requests s) /\ nextRedraw (win s) = (r + 50 * ms)%Z) /\
  match renderer s with
  | RCheck true n => exists r, In r (requests s) /\ n = (r + 50 * ms)%Z
  | RClear | RRender => exists r, In r (requests s) /\ (r + 50 * ms < clock s)%Z
  | _ => True
  end /\
  (forall p, In p (passes s) ->
     exists r, In r (requests s) /\ (r + 50 * ms < p)%Z).

End Sched.

(** ** [main] and [run] *)

Module Process.

Local Open Scope string_scope.

(** What the outside does to a run of the program: the error of each
    stage, [None] when it succeeds; [from_stdin] tells that the file
    name is [-]; [lost] tells that [WaitForEvent]
    returned neither an event nor an error before a [DestroyNotify]. *)
Record world : Type := mkWorld
  { args_error : option string;
    from_stdin : bool;
    read_error : option string;
    decode_error : option string;
    conn_error : option string;
    shm_error : option string;
    window_error : option string;
    lost : bool }.

Definition wrap (prefix : string) (e : option string) : option string :=
  match e with
  | Some m => Some (prefix ++ m)
  | None => None
  end.

(** [NewImageWindow]: [loadImage], then [setupX]. *)
Definition NewImageWindow (w : world) : option string :=
  match wrap "load image: " (wrap "decode image: " (decode_error w)) with
  | Some e => Some e
  | None =>
      match conn_error w with
      | Some e => Some ("setup x: new conn: " ++ e)
      | None => wrap "setup x: " (wrap "init shm: " (shm_error w))
      end
  end.

(** The [RunE] function of the command. *)
Definition RunE (w : world) : option string :=
  match wrap (if from_stdin w then "read image bytes from stdin: "
              else "read image bytes from file: ") (read_error w) with
  | Some e => Some e
  | None =>
  match wrap "new display: " (NewImageWindow w) with
  | Some e => Some e
  | None =>
  match wrap "create window: " (window_error w) with
  | Some e => Some e
  | None =>
      if lost w
      then Some "handle events: got no event but err is nil, exiting"
      else None
  end end end.

(** A command line and what the outside does to the run it starts:
    [flag_error] is the error of parsing the flags, [help] tells that
    [-h] or [--help] was given, [xlog] holds the lines that the X
    library writes on the standard error through its own logger (it
    reports there the read error that makes [WaitForEvent] return
    neither an event nor an error), and [stages] is the outcome of each
    stage of the run; its [args_error] is the error of the check of the
    positional arguments. *)
Record invocation : Type := mkInvocation
  { flag_error : option string;
    help : bool;
    xlog : list string;
    stages : world }.

(** [cmd.Execute()]: the flags are parsed; a request for help prints the
    usage on the standard output and gives [nil] without [RunE] being
    called; the positional arguments are checked; [RunE] is called. *)
Definition Execute (i : invocation) : option string :=
  match flag_error i with
  | Some e => Some e
  | None =>
      if help i then None
      else match args_error (stages i) with
           | Some e => Some e
           | None => RunE (stages i)
           end
  end.

(** [run]: the error of [cmd.Execute()], wrapped. *)
Definition run (i : invocation) : option string :=
  wrap "run command: " (Execute i).

(** What a process leaves: the lines on the standard error and the exit
    status. *)
Record process : Type := mkProcess { stderr : list string; status : Z }.

(** [main]: the error is printed with [fmt.Fprintln(os.Stderr, err)],
    after whatever the X library has logged during [run]; then [main]
    returns, and a Go program whose [main] returns exits with
    status 0. *)
Definition main (i : invocation) : process :=
  match run i with
  | Some err => mkProcess (xlog i ++ [err])%list 0
  | None => mkProcess (xlog i) 0
  end.






End Process.

(** ** The same computations on the kernel's binary64 numbers

    These definitions repeat [Render.fit] and [Render.maskAlpha] with the
    primitive floats of the kernel, which are the IEEE 754 binary64
    numbers of the machine.  They serve to compare the model of [F64]
    with the hardware arithmetic on ranges of inputs. *)

Module Machine.

Import Render.

Definition float_of_Z (n : Z) : float := PrimFloat.of_uint63 (Uint63.of_Z n).

(** [int(x)] on a primitive float: the fraction is discarded. *)
Definition trunc (x : float) : option Z :=
  match Prim2SF x with
  | S754_zero _ => Some 0%Z
  | S754_finite s m e =>
      let v := if (0 <=? e)%Z then (Zpos m * 2 ^ e)%Z else Z.shiftr (Zpos m) (- e) in
      Some (if s then (- v)%Z else v)
  | _ => None
  end.

Definition fit (srcW srcH geomW geomH : Z) : option rect :=
  let a := PrimFloat.div (float_of_Z srcW) (float_of_Z srcH) in
  let na := PrimFloat.div (float_of_Z geomW) (float_of_Z geomH) in
  if PrimFloat.ltb a na then
    match trunc (PrimFloat.mul a (float_of_Z geomH)) with
    | Some newWidth =>
        Some (mkRect newWidth geomH (Z.quot (geomW - newWidth) 2) 0)
    | None => None
    end
  else
    match trunc (PrimFloat.div (float_of_Z geomW) a) with
    | Some newHeight =>
        Some (mkRect geomW newHeight 0 (Z.quot (geomH - newHeight) 2))
    | None => None
    end.

(** The mask alpha for the opacity [x / w] that a click stores. *)
Definition maskAlpha (x w : Z) : option Z :=
  trunc (PrimFloat.mul (float_of_Z 255)
           (PrimFloat.div (float_of_Z x) (float_of_Z w))).

Definition rect_eqb (r1 r2 : rect) : bool :=
  ((width r1 =? width r2) && (height r1 =? height r2) &&
   (xOffset r1 =? xOffset r2) && (yOffset r1 =? yOffset r2))%Z.

Definition option_eqb {X : Type} (eqb : X -> X -> bool) (a b : option X) : bool :=
  match a, b with
  | Some x, Some y => eqb x y
  | None, None => true
  | _, _ => false
  end.

(** The sizes on which the two are compared. *)
Definition sizes : list Z :=
  [1; 2; 3; 7; 49; 100; 400; 65535]%Z.

Definition agree_fit (srcW srcH : Z) : bool :=
  forallb (fun w =>
    forallb (fun h =>
      option_eqb rect_eqb (fit srcW srcH w h) (Render.fit srcW srcH w h))
      sizes) sizes.

Definition agree_mask (w : Z) : bool :=
  forallb (fun x =>
    option_eqb Z.eqb (maskAlpha x w)
      (Render.maskAlpha (fdiv (of_int x) (of_int w))))
    (Pack.range (w + 1)).

End Machine.

(** ** The choice of the visual ([MatchVisualInfo]) and [CreateWindow] *)

Module Window.

Local Open Scope string_scope.

(** The fields of [xproto.VisualInfo] and [xproto.DepthInfo] that the
    program reads. *)
Record VisualInfo : Type := mkVisual { VisualId : Z; Class : Z }.

Record DepthInfo : Type := mkDepth { Depth : Z; Visuals : list VisualInfo }.

Definition DepthWithAlpha : Z := 32.
Definition ClassTrueColor : Z := 4.

(** The inner loop: the first visual of the class. *)
Fixpoint match_visual (visuals : list VisualInfo) (class : Z) : option VisualInfo :=
  match visuals with
  | [] => None
  | visual :: rest =>
      if (Class visual =? class)%Z then Some visual else match_visual rest class
  end.

(** [MatchVisualInfo]: the depths that differ are skipped ([continue]);
    [None] is the [nil] returned after the loops. *)
Fixpoint MatchVisualInfo (depthInfos : list DepthInfo) (depth class : Z)
  : option VisualInfo :=
  match depthInfos with
  | [] => None
  | depthInfo :: rest =>
      if negb (Depth depthInfo =? depth)%Z then MatchVisualInfo rest depth class
      else
        match match_visual (Visuals depthInfo) class with
        | Some visual => Some visual
        | None => MatchVisualInfo rest depth class
        end
  end.

(** The requests of [CreateWindow], in the order of the source. *)
Inductive request : Type :=
| NewColormapId
| NewWindowId
| CreateColormapChecked (visual : Z)
| CreateWindowChecked (width height visual : Z)
| ChangeWindowAttributes
| MapWindowChecked
| ChangePropertyChecked
| NewGcontextId
| CreateGCChecked.

(** The kind of a request, by which the outside answers. *)
Inductive kind : Type :=
| KColormapId | KWindowId | KCreateColormap | KCreateWindow | KAttributes
| KMapWindow | KChangeProperty | KGcontextId | KCreateGC.

Definition kind_of (r : request) : kind :=
  match r with
  | NewColormapId => KColormapId
  | NewWindowId => KWindowId
  | CreateColormapChecked _ => KCreateColormap
  | CreateWindowChecked _ _ _ => KCreateWindow
  | ChangeWindowAttributes => KAttributes
  | MapWindowChecked => KMapWindow
  | ChangePropertyChecked => KChangeProperty
  | NewGcontextId => KGcontextId
  | CreateGCChecked => KCreateGC
  end.

(** [None] when the request succeeds, [Some e] for its error. *)
Definition world : Type := kind -> option string.

(** What [CreateWindow] changes in [ImageWindow]: the window identifier,
    the recorded sizes and the graphics context are set or not; the
    requests sent are recorded. *)
Record display : Type := mkDisplay
  { sent : list request;
    hasWindowID : bool;
    sizes : option (Z * Z);
    hasImageGc : bool }.

(** [uint16(n)] of an [int]. *)
Definition uint16 (n : Z) : Z := n mod 65536.

Definition send (r : request) (d : display) : display :=
  mkDisplay (sent d ++ [r]) (hasWindowID d) (sizes d) (hasImageGc d).

(** [setClass]: one checked request, its error wrapped. *)
Definition setClass (w : world) (d : display) : option string * display :=
  match w KChangeProperty with
  | Some e => (Some ("set class: " ++ e), send ChangePropertyChecked d)
  | None => (None, send ChangePropertyChecked d)
  end.

(** [CreateWindow] on an image of sizes [imageWidth] and [imageHeight].
    [ChangeWindowAttributes] is sent unchecked: its answer is not read. *)
Definition CreateWindow (allowedDepths : list DepthInfo) (imageWidth imageHeight : Z)
    (w : world) (d : display) : option string * display :=
  match MatchVisualInfo allowedDepths DepthWithAlpha ClassTrueColor with
  | None => (Some "no visual with required parameters found", d)
  | Some visualInfo =>
  let d := send NewColormapId d in
  match w KColormapId with
  | Some e => (Some ("new colormap id: " ++ e), d)
  | None =>
  let d := send NewWindowId d in
  match w KWindowId with
  | Some e => (Some ("new window id: " ++ e), d)
  | None =>
  let d := mkDisplay (sent d) true (sizes d) (hasImageGc d) in
  let d := send (CreateColormapChecked (VisualId visualInfo)) d in
  match w KCreateColormap with
  | Some e => (Some ("create colormap: " ++ e), d)
  | None =>
  let d := send (CreateWindowChecked (uint16 imageWidth) (uint16 imageHeight)
                   (VisualId visualInfo)) d in
  match w KCreateWindow with
  | Some e => (Some ("create window: " ++ e), d)
  | None =>
  let d := mkDisplay (sent d) (hasWindowID d) (Some (imageWidth, imageHeight))
                     (hasImageGc d) in
  let d := send ChangeWindowAttributes d in
  let d := send MapWindowChecked d in
  match w KMapWindow with
  | Some e => (Some ("map window :" ++ e), d)
  | None =>
  match setClass w d with
  | (Some e, d) => (Some ("set class: " ++ e), d)
  | (None, d) =>
  let d := send NewGcontextId d in
  match w KGcontextId with
  | Some e => (Some ("new graphics context id: " ++ e), d)
  | None =>
  let d := send CreateGCChecked d in
  match w KCreateGC with
  | Some e => (Some ("create graphics context: " ++ e), d)
  | None => (None, mkDisplay (sent d) (hasWindowID d) (sizes d) true)
  end end end end end end end end end.

(** The kinds of the checked requests, in the order they are sent. *)
Definition checked : list kind :=
  [KColormapId; KWindowId; KCreateColormap; KCreateWindow; KMapWindow;
   KChangeProperty; KGcontextId; KCreateGC].

(** The kinds of all the requests, in the order they are sent. *)
Definition order : list kind :=
  [KColormapId; KWindowId; KCreateColormap; KCreateWindow; KAttributes;
   KMapWindow; KChangeProperty; KGcontextId; KCreateGC].

Definition kind_eqb (a b : kind) : bool :=
  match a, b with
  | KColormapId, KColormapId | KWindowId, KWindowId
  | KCreateColormap, KCreateColormap | KCreateWindow, KCreateWindow
  | KAttributes, KAttributes | KMapWindow, KMapWindow
  | KChangeProperty, KChangeProperty | KGcontextId, KGcontextId
  | KCreateGC, KCreateGC => true
  | _, _ => false
  end.

(** The requests up to the first checked one that fails. *)
Fixpoint until_failure (w : world) (l : list kind) : list kind :=
  match l with
  | [] => []
  | k :: rest =>
      k :: match k, w k with
           | KAttributes, _ => until_failure w rest
           | _, Some _ => []
           | _, None => until_failure w rest
           end
  end.

Definition fresh : display := mkDisplay [] false None false.

End Window.

(** ** The clamp of the initial opacity ([run]) *)

Module Cli.

(** The builtin [max] and [min] of Go on [float64]: the result is NaN as
    soon as an argument is. *)
Definition fmax (a b : f64) : f64 :=
  match a, b with
  | NaN, _ | _, NaN => NaN
  | _, _ => if fgt a b then a else b
  end.

Definition fmin (a b : f64) : f64 :=
  match a, b with
  | NaN, _ | _, NaN => NaN
  | _, _ => if fgt a b then b else a
  end.

(** [initialOpacity = min(1.0, max(0.0, initialOpacity))] *)
Definition clampOpacity (initialOpacity : f64) : f64 :=
  fmin (Fin 1) (fmax (Fin 0) initialOpacity).

End Cli.

(** ** More on the events and on the renderer *)

Module More.

Import Events Sched.

(** The events at which [HandleEvents] returns. *)
Definition returns (ev : xevent) : bool :=
  match ev with
  | DestroyNotifyEvent | Nothing => true
  | _ => false
  end.

(** The events that no case of the [switch] matches. *)
Definition unmatched (ev : xevent) : bool :=
  match ev with
  | OtherEvent | XError => true
  | _ => false
  end.

(** The sizes reported by the last resize notification of a list of
    events, [sz] when there is none. *)
Fixpoint last_size (evs : list (Z * xevent)) (sz : Z * Z) : Z * Z :=
  match evs with
  | [] => sz
  | (_, ConfigureNotifyEvent w h) :: rest => last_size rest (w, h)
  | _ :: rest => last_size rest sz
  end.

(** The passes the renderer can still start once it is cancelled. *)
Definition budget (r : rpc) : nat :=
  match r with
  | RSleep _ | RRead | RCheck _ _ | RClear | RRender => 1
  | _ => 0
  end.

(** The redraws that are requested and not yet rendered. *)
Definition pending (s : state) : nat :=
  (if dirty (win s) then 1 else 0) +
  match renderer s with
  | RRender => 1
  | _ => 0
  end.

(** Passes and pending redraws never outnumber the requests. *)
Definition counted (s : state) : Prop :=
  (List.length (passes s) + pending s <= List.length (requests s))%nat /\
  match renderer s with
  | RCheck true _ | RClear => dirty (win s) = true
  | _ => True
  end.

(** States on which the statements are tried: the one the schedule of
    the swallowed request ends in, and one in which [Close] has cancelled
    the renderer while it is about to clear the flag. *)
Definition raced : state :=
  mkState (51 * ms)
    (clear_dirty (requestRedraw (49 * ms) (requestRedraw 0 (initial (Fin 1) 200 100))))
    false true 1 RTransfer MRunning [49 * ms; 0]%Z [51 * ms]%Z [(51 * ms, true)]%Z.

Definition cancelled_while_clearing : state :=
  mkState (51 * ms) (requestRedraw 0 (initial (Fin 1) 200 100))
    true true 1 RClear MCancelled [0%Z] [] [].

Definition polling (pc : rpc) : state :=
  mkState (50 * ms) (requestRedraw 0 (initial (Fin 1) 200 100))
    false true 1 pc MRunning [0%Z] [] [].

(** A call of the transfer that the outside lets succeed. *)
Definition succeeds (w : Transfer.world) (c : Transfer.call) : bool :=
  match w c with
  | None => true
  | Some _ => false
  end.

End More.

(** ** What [run] does, step by step *)

Module Lifecycle.

Import Process.

(** The steps of [RunE] that act on the outside, in the order of the
    source: [NewImageWindow] is [Decode], [NewConn], [ShmInit] and the
    [go] statement; [Close] is deferred once it returned without error. *)
Inductive action : Type :=
| ReadInput
| Decode
| NewConn
| ShmInit
| StartRenderer
| CreateWindow
| RequestRedraw
| HandleEvents
| Close.

Definition is_some {X : Type} (o : option X) : bool :=
  match o with
  | Some _ => true
  | None => false
  end.

(** [loadImage], [setupX], then the goroutine. *)
Definition new_image_window (w : world) : list action * bool :=
  if is_some (decode_error w) then ([Decode], false)
  else if is_some (conn_error w) then ([Decode; NewConn], false)
  else if is_some (shm_error w) then ([Decode; NewConn; ShmInit], false)
  else ([Decode; NewConn; ShmInit; StartRenderer], true).

(** The body of [RunE] after [NewImageWindow]; the deferred [Close]
    runs when it returns. *)
Definition with_display (w : world) : list action :=
  (if is_some (window_error w) then [CreateWindow]
   else [CreateWindow; RequestRedraw; HandleEvents]) ++ [Close].

(** The actions of [run] once the flags are parsed and no help is asked
    for: the check of the arguments, then [RunE]. *)
Definition actions (w : world) : list action :=
  if is_some (args_error w) then []
  else if is_some (read_error w) then [ReadInput]
  else
    let (l, ok) := new_image_window w in
    ReadInput :: l ++ (if ok then with_display w else []).


End Lifecycle.
(** ** Facts on binary64 rounding *)

Section Pow2Facts.
Local Open Scope Q_scope.

Lemma two_neq0 : ~ 2 == 0.
Proof. discriminate. Qed.

Lemma pow2_pos z : 0 < pow2 z.
Proof. apply Qpower_0_lt. reflexivity. Qed.

Lemma pow2_add a b : pow2 (a + b) == pow2 a * pow2 b.
Proof. apply Qpower_plus, two_neq0. Qed.

Lemma pow2_le a b : (a <= b)%Z -> pow2 a <= pow2 b.
Proof. intros H. apply Qpower_le_compat_l; [exact H | discriminate]. Qed.

Lemma pow2_lt a b : (a < b)%Z -> pow2 a < pow2 b.
Proof. intros H. apply Qpower_lt_compat_l; [exact H | reflexivity]. Qed.

Lemma pow2_Z z : (0 <= z)%Z -> pow2 z == inject_Z (2 ^ z).
Proof. intros H. symmetry. apply (Zpower_Qpower 2 z H). Qed.

Lemma pow2_nonzero z : ~ pow2 z == 0.
Proof. intros H. pose proof (pow2_pos z) as P. rewrite H in P. discriminate. Qed.

End Pow2Facts.

Section Ilog2Facts.
Local Open Scope Q_scope.

Lemma ilog2_spec x : 0 < x -> pow2 (ilog2 x) <= x /\ x < pow2 (ilog2 x + 1).
Proof.
  intros Hx. destruct x as [p q]. unfold ilog2. cbn [Qnum Qden].
  assert (Hp : (0 < p)%Z) by (unfold Qlt in Hx; simpl in Hx; lia).
  set (a := Z.log2 p). set (b := Z.log2 (Zpos q)).
  assert (Ha : (0 <= a)%Z) by apply Z.log2_nonneg.
  assert (Hb : (0 <= b)%Z) by apply Z.log2_nonneg.
  destruct (Z.log2_spec p Hp) as [Ha1 Ha2]. fold a in Ha1, Ha2.
  destruct (Z.log2_spec (Zpos q) (Pos2Z.is_pos q)) as [Hb1 Hb2].
  fold b in Hb1, Hb2.
  assert (Epq : p # q == inject_Z p / inject_Z (Zpos q)) by apply Qmake_Qdiv.
  assert (Hq0 : 0 < inject_Z (Zpos q)) by reflexivity.
  assert (Pa1 : pow2 a <= inject_Z p).
  { rewrite pow2_Z by lia. rewrite <- Zle_Qle. exact Ha1. }
  assert (Pa2 : inject_Z p < pow2 (a + 1)).
  { rewrite pow2_Z by lia. rewrite <- Zlt_Qlt. unfold Z.succ in Ha2. exact Ha2. }
  assert (Pb1 : pow2 b <= inject_Z (Zpos q)).
  { rewrite pow2_Z by lia. rewrite <- Zle_Qle. exact Hb1. }
  assert (Pb2 : inject_Z (Zpos q) < pow2 (b + 1)).
  { rewrite pow2_Z by lia. rewrite <- Zlt_Qlt. unfold Z.succ in Hb2. exact Hb2. }
  assert (Up : p # q < pow2 (a - b + 1)).
  { rewrite Epq. apply Qlt_shift_div_r; [exact Hq0|].
    apply Qlt_le_trans with (pow2 (a - b + 1) * pow2 b).
    - rewrite <- pow2_add. replace (a - b + 1 + b)%Z with (a + 1)%Z by ring.
      exact Pa2.
    - apply Qmult_le_l; [apply pow2_pos | exact Pb1]. }
  assert (Lo : pow2 (a - b - 1) <= p # q).
  { rewrite Epq. apply Qle_shift_div_l; [exact Hq0|].
    apply Qle_trans with (pow2 (a - b - 1) * pow2 (b + 1)).
    - apply Qmult_le_l; [apply pow2_pos | apply Qlt_le_weak; exact Pb2].
    - rewrite <- pow2_add. replace (a - b - 1 + (b + 1))%Z with a by ring.
      exact Pa1. }
  destruct (Qle_bool (pow2 (a - b)) (p # q)) eqn:E.
  - apply Qle_bool_iff in E. split; assumption.
  - assert (Hlt : p # q < pow2 (a - b)).
    { apply Qnot_le_lt. intros H. apply Qle_bool_iff in H. congruence. }
    replace (a - b - 1 + 1)%Z with (a - b)%Z by ring. split; assumption.
Qed.

Lemma ilog2_unique x e :
  0 < x -> pow2 e <= x -> x < pow2 (e + 1) -> ilog2 x = e.
Proof.
  intros Hx Hl Hu. destruct (ilog2_spec x Hx) as [Sl Su].
  destruct (Z.lt_trichotomy (ilog2 x) e) as [H | [H | H]]; [|exact H|].
  - exfalso. assert (pow2 (ilog2 x + 1) <= pow2 e) by (apply pow2_le; lia).
    apply (Qlt_irrefl x). eapply Qlt_le_trans; [exact Su|].
    eapply Qle_trans; eassumption.
  - exfalso. assert (pow2 (e + 1) <= pow2 (ilog2 x)) by (apply pow2_le; lia).
    apply (Qlt_irrefl x). eapply Qlt_le_trans; [exact Hu|].
    eapply Qle_trans; eassumption.
Qed.

Lemma ilog2_mono x y : 0 < x -> x <= y -> (ilog2 x <= ilog2 y)%Z.
Proof.
  intros Hx Hxy.
  assert (Hy : 0 < y) by (eapply Qlt_le_trans; eassumption).
  destruct (ilog2_spec x Hx) as [Xl Xu]. destruct (ilog2_spec y Hy) as [Yl Yu].
  destruct (Z_le_gt_dec (ilog2 x) (ilog2 y)) as [H | H]; [exact H|].
  exfalso. assert (pow2 (ilog2 y + 1) <= pow2 (ilog2 x)) by (apply pow2_le; lia).
  apply (Qlt_irrefl y). eapply Qlt_le_trans; [exact Yu|].
  eapply Qle_trans; [eassumption|]. eapply Qle_trans; eassumption.
Qed.

Lemma ilog2_comp x y : 0 < x -> x == y -> ilog2 x = ilog2 y.
Proof.
  intros Hx E. assert (Hy : 0 < y) by (rewrite <- E; exact Hx).
  destruct (ilog2_spec y Hy) as [Yl Yu].
  apply ilog2_unique; [exact Hx | rewrite E; exact Yl | rewrite E; exact Yu].
Qed.

Lemma ilog2_pow2 k : ilog2 (pow2 k) = k.
Proof.
  apply ilog2_unique; [apply pow2_pos | apply Qle_refl | apply pow2_lt; lia].
Qed.

End Ilog2Facts.

Section RneFacts.
Local Open Scope Q_scope.

Lemma rne_comp x y : x == y -> rne x = rne y.
Proof.
  intros E. unfold rne. rewrite (Qfloor_comp x y E).
  assert (E2 : x - inject_Z (Qfloor y) == y - inject_Z (Qfloor y))
    by (rewrite E; reflexivity).
  rewrite (Qcompare_comp _ _ E2 (1 # 2) (1 # 2) (Qeq_refl _)). reflexivity.
Qed.

Lemma rne_Z n : rne (inject_Z n) = n.
Proof.
  unfold rne. rewrite Qfloor_Z.
  assert (E : inject_Z n - inject_Z n == 0) by ring.
  rewrite (Qcompare_comp _ _ E (1 # 2) (1 # 2) (Qeq_refl _)). reflexivity.
Qed.

Lemma rne_cases y :
  (rne y = Qfloor y /\ y - inject_Z (Qfloor y) <= 1 # 2) \/
  (rne y = (Qfloor y + 1)%Z /\ 1 # 2 <= y - inject_Z (Qfloor y)).
Proof.
  unfold rne.
  destruct (Qcompare_spec (y - inject_Z (Qfloor y)) (1 # 2)) as [H | H | H].
  - destruct (Z.even (Qfloor y)); [left | right]; split; try reflexivity;
      rewrite H; apply Qle_refl.
  - left. split; [reflexivity | apply Qlt_le_weak; exact H].
  - right. split; [reflexivity | apply Qlt_le_weak; exact H].
Qed.

Lemma floor_bounds y :
  inject_Z (Qfloor y) <= y /\ y < inject_Z (Qfloor y) + 1.
Proof.
  split; [apply Qfloor_le|].
  pose proof (Qlt_floor y) as H. rewrite inject_Z_plus in H. exact H.
Qed.

Lemma rne_err y :
  y - (1 # 2) <= inject_Z (rne y) /\ inject_Z (rne y) <= y + (1 # 2).
Proof.
  destruct (floor_bounds y) as [L U].
  destruct (rne_cases y) as [[E H] | [E H]]; rewrite E.
  - split; lra.
  - rewrite inject_Z_plus. change (inject_Z 1) with 1. split; lra.
Qed.

Lemma rne_mono x y : x <= y -> (rne x <= rne y)%Z.
Proof.
  intros Hxy.
  pose proof (Qfloor_resp_le x y Hxy) as Hf.
  destruct (Z.eq_dec (Qfloor x) (Qfloor y)) as [Ef | Nf].
  - unfold rne. rewrite Ef.
    destruct (Qcompare_spec (x - inject_Z (Qfloor y)) (1 # 2)) as [Hx | Hx | Hx];
    destruct (Qcompare_spec (y - inject_Z (Qfloor y)) (1 # 2)) as [Hy | Hy | Hy];
    try (destruct (Z.even (Qfloor y))); try lia; exfalso; lra.
  - destruct (rne_cases x) as [[Ex _] | [Ex _]];
    destruct (rne_cases y) as [[Ey _] | [Ey _]]; lia.
Qed.

Lemma rne_nonneg y : 0 <= y -> (0 <= rne y)%Z.
Proof.
  intros H. rewrite <- (rne_Z 0). apply rne_mono. exact H.
Qed.

End RneFacts.

Section RndFacts.
Local Open Scope Q_scope.

Lemma rgrid_mono s x y : x <= y -> rgrid s x <= rgrid s y.
Proof.
  intros H. unfold rgrid. apply Qmult_le_compat_r; [|apply Qlt_le_weak, pow2_pos].
  rewrite <- Zle_Qle. apply rne_mono. unfold Qdiv.
  apply Qmult_le_compat_r; [exact H|].
  apply Qlt_le_weak, Qinv_lt_0_compat, pow2_pos.
Qed.

Lemma rgrid_fix s x m : x == inject_Z m * pow2 s -> rgrid s x == x.
Proof.
  intros E. unfold rgrid.
  assert (D : x / pow2 s == inject_Z m).
  { rewrite E. apply Qdiv_mult_l, pow2_nonzero. }
  rewrite (rne_comp _ _ D), rne_Z. symmetry. exact E.
Qed.

Lemma rgrid_fix_coarser s t x m :
  (s <= t)%Z -> x == inject_Z m * pow2 t -> rgrid s x == x.
Proof.
  intros Hst E. apply (rgrid_fix s x (m * 2 ^ (t - s))).
  rewrite E, inject_Z_mult, <- pow2_Z by lia.
  rewrite <- Qmult_assoc, <- pow2_add.
  replace (t - s + s)%Z with t by ring. reflexivity.
Qed.

Lemma rgrid_comp s x y : x == y -> rgrid s x == rgrid s y.
Proof.
  intros E. unfold rgrid.
  assert (D : x / pow2 s == y / pow2 s) by (rewrite E; reflexivity).
  rewrite (rne_comp _ _ D). reflexivity.
Qed.

Lemma fexp_mono x y : 0 < x -> x <= y -> (fexp x <= fexp y)%Z.
Proof.
  intros Hx H. unfold fexp. pose proof (ilog2_mono x y Hx H). lia.
Qed.

Lemma rnd_comp x y : 0 < x -> x == y -> rnd x == rnd y.
Proof.
  intros Hx E. unfold rnd, fexp. rewrite (ilog2_comp x y Hx E).
  apply rgrid_comp, E.
Qed.

Lemma rnd_fix x m s :
  0 < x -> (fexp x <= s)%Z -> x == inject_Z m * pow2 s -> rnd x == x.
Proof.
  intros Hx Hs E. unfold rnd. eapply rgrid_fix_coarser; eassumption.
Qed.

Lemma rnd_pow2 k : (-1074 <= k)%Z -> rnd (pow2 k) == pow2 k.
Proof.
  intros Hk. apply (rnd_fix _ 1 k); [apply pow2_pos | | ring].
  unfold fexp. rewrite ilog2_pow2. lia.
Qed.

Lemma rnd_mono x y : 0 < x -> x <= y -> rnd x <= rnd y.
Proof.
  intros Hx Hxy.
  assert (Hy : 0 < y) by (eapply Qlt_le_trans; eassumption).
  pose proof (fexp_mono x y Hx Hxy) as Hf.
  destruct (Z.eq_dec (fexp x) (fexp y)) as [E | N].
  - unfold rnd. rewrite E. apply rgrid_mono, Hxy.
  - assert (Hlt : (fexp x < fexp y)%Z) by lia.
    destruct (ilog2_spec x Hx) as [_ Xu]. destruct (ilog2_spec y Hy) as [Yl _].
    unfold fexp in Hlt.
    assert (Ey : fexp y = (ilog2 y - 52)%Z) by (unfold fexp; lia).
    assert (Hxb : x <= pow2 (ilog2 y)).
    { apply Qlt_le_weak. eapply Qlt_le_trans; [exact Xu|]. apply pow2_le. lia. }
    apply Qle_trans with (pow2 (ilog2 y)).
    + assert (F : rgrid (fexp x) (pow2 (ilog2 y)) == pow2 (ilog2 y)).
      { apply (rgrid_fix_coarser _ (ilog2 y) _ 1); [unfold fexp; lia | ring]. }
      rewrite <- F. unfold rnd. apply rgrid_mono, Hxb.
    + assert (F : rgrid (fexp y) (pow2 (ilog2 y)) == pow2 (ilog2 y)).
      { apply (rgrid_fix_coarser _ (ilog2 y) _ 1); [lia | ring]. }
      rewrite <- F. unfold rnd. apply rgrid_mono, Yl.
Qed.

Lemma rnd_pos x : 0 < x -> 0 <= rnd x.
Proof.
  intros Hx. unfold rnd, rgrid.
  apply Qmult_le_0_compat; [|apply Qlt_le_weak, pow2_pos].
  change 0 with (inject_Z 0). rewrite <- Zle_Qle. apply rne_nonneg.
  apply Qlt_le_weak. apply Qlt_shift_div_l; [apply pow2_pos|].
  rewrite Qmult_0_l. exact Hx.
Qed.

Lemma ilog2_int n : (0 < n)%Z -> (n < 2 ^ 53)%Z -> (fexp (inject_Z n) <= 0)%Z.
Proof.
  intros Hn Hb. unfold fexp.
  assert (H0 : 0 < inject_Z n) by (change 0 with (inject_Z 0); rewrite <- Zlt_Qlt; exact Hn).
  destruct (ilog2_spec _ H0) as [L _].
  assert (pow2 (ilog2 (inject_Z n)) < pow2 53).
  { eapply Qle_lt_trans; [exact L|]. rewrite (pow2_Z 53) by lia.
    rewrite <- Zlt_Qlt. exact Hb. }
  assert ((ilog2 (inject_Z n) < 53)%Z).
  { apply (Qpower_lt_compat_l_inv 2); [assumption | reflexivity]. }
  lia.
Qed.

Lemma rnd_int n : (0 < n)%Z -> (n <= 2 ^ 53)%Z -> rnd (inject_Z n) == inject_Z n.
Proof.
  intros Hn Hb.
  destruct (Z.eq_dec n (2 ^ 53)) as [E | N].
  - subst n.
    assert (E : inject_Z (2 ^ 53) == pow2 53) by (symmetry; apply pow2_Z; lia).
    eapply Qeq_trans; [apply (rnd_comp _ (pow2 53)); [reflexivity | exact E]|].
    rewrite rnd_pow2 by lia. symmetry. exact E.
  - apply (rnd_fix _ n 0).
    + change 0 with (inject_Z 0). rewrite <- Zlt_Qlt. exact Hn.
    + apply ilog2_int; lia.
    + change (pow2 0) with 1. ring.
Qed.

Lemma rnd_err x :
  pow2 (-1022) <= x ->
  x - x * pow2 (-53) <= rnd x /\ rnd x <= x + x * pow2 (-53).
Proof.
  intros Hn.
  assert (Hx : 0 < x) by (eapply Qlt_le_trans; [apply (pow2_pos (-1022)) | exact Hn]).
  destruct (ilog2_spec x Hx) as [L _].
  assert (He : (-1022 <= ilog2 x)%Z).
  { rewrite <- (ilog2_pow2 (-1022)). apply ilog2_mono; [apply pow2_pos | exact Hn]. }
  assert (Es : fexp x = (ilog2 x - 52)%Z) by (unfold fexp; lia).
  unfold rnd, rgrid. rewrite Es. set (s := (ilog2 x - 52)%Z).
  pose proof (pow2_pos s) as Ps.
  destruct (rne_err (x / pow2 s)) as [A B].
  assert (Ex : x / pow2 s * pow2 s == x).
  { unfold Qdiv. rewrite <- Qmult_assoc, (Qmult_comm (/ pow2 s)).
    rewrite Qmult_inv_r by apply pow2_nonzero. ring. }
  assert (Hh : (1 # 2) * pow2 s <= x * pow2 (-53)).
  { assert (P : pow2 (ilog2 x) == pow2 s * pow2 52).
    { rewrite <- pow2_add. unfold s.
      replace (ilog2 x - 52 + 52)%Z with (ilog2 x) by ring. reflexivity. }
    assert (C : pow2 52 * pow2 (-53) == 1 # 2) by (vm_compute; reflexivity).
    assert (Q1 : pow2 (ilog2 x) * pow2 (-53) <= x * pow2 (-53)).
    { apply Qmult_le_compat_r; [exact L | apply Qlt_le_weak, pow2_pos]. }
    assert (Q2 : pow2 (ilog2 x) * pow2 (-53) == (1 # 2) * pow2 s).
    { rewrite P, <- C. ring. }
    rewrite <- Q2. exact Q1. }
  assert (A' : (x / pow2 s - (1 # 2)) * pow2 s
               <= inject_Z (rne (x / pow2 s)) * pow2 s).
  { apply Qmult_le_compat_r; [exact A | apply Qlt_le_weak, Ps]. }
  assert (B' : inject_Z (rne (x / pow2 s)) * pow2 s
               <= (x / pow2 s + (1 # 2)) * pow2 s).
  { apply Qmult_le_compat_r; [exact B | apply Qlt_le_weak, Ps]. }
  assert (A2 : (x / pow2 s - (1 # 2)) * pow2 s == x - (1 # 2) * pow2 s).
  { rewrite <- Ex at 2. ring. }
  assert (B2 : (x / pow2 s + (1 # 2)) * pow2 s == x + (1 # 2) * pow2 s).
  { rewrite <- Ex at 2. ring. }
  rewrite A2 in A'. rewrite B2 in B'. split; lra.
Qed.

End RndFacts.

Section Round64Facts.
Local Open Scope Q_scope.

(** The unit roundoff of binary64. *)
Lemma u_eq : pow2 (-53) == 1 # 9007199254740992.
Proof. vm_compute. reflexivity. Qed.

Lemma round64_zero x : x == 0 -> round64 x = Fin 0.
Proof.
  intros E. unfold round64. apply Qeq_alt in E. rewrite E. reflexivity.
Qed.

Lemma round64_pos x :
  0 < x -> rnd x < pow2 1024 -> round64 x = Fin (Qred (rnd x)).
Proof.
  intros Hx Hb. unfold round64.
  assert (G : Qcompare x 0 = Gt) by (apply Qgt_alt; exact Hx).
  rewrite G. unfold round_pos.
  destruct (Qle_bool (pow2 1024) (rnd x)) eqn:E; [|reflexivity].
  apply Qle_bool_iff in E. exfalso. apply (Qlt_irrefl (rnd x)).
  eapply Qlt_le_trans; eassumption.
Qed.

(** Below a power of two the rounding stays below it. *)
Lemma rnd_le_pow2 x k : 0 < x -> (-1074 <= k)%Z -> x <= pow2 k -> rnd x <= pow2 k.
Proof.
  intros Hx Hk H. rewrite <- (rnd_pow2 k Hk). apply rnd_mono; assumption.
Qed.

(** Rounding is monotone and fixes the integers up to [2^53]. *)
Lemma rnd_le_int x n :
  0 < x -> (n <= 2 ^ 53)%Z -> x <= inject_Z n -> rnd x <= inject_Z n.
Proof.
  intros Hx Hn H.
  assert (Hn0 : (0 < n)%Z).
  { rewrite Zlt_Qlt. eapply Qlt_le_trans; eassumption. }
  rewrite <- (rnd_int n Hn0 Hn). apply rnd_mono; assumption.
Qed.

Lemma rnd_ge_int x n :
  (0 < n)%Z -> (n <= 2 ^ 53)%Z -> inject_Z n <= x -> inject_Z n <= rnd x.
Proof.
  intros Hn0 Hn H. rewrite <- (rnd_int n Hn0 Hn). apply rnd_mono; [|exact H].
  change 0 with (inject_Z 0). rewrite <- Zlt_Qlt. exact Hn0.
Qed.

Lemma pow2_1024_big n : (n <= 2 ^ 63)%Z -> inject_Z n < pow2 1024.
Proof.
  intros H. apply Qle_lt_trans with (inject_Z (2 ^ 63)).
  - rewrite <- Zle_Qle. exact H.
  - rewrite <- (pow2_Z 63) by lia. apply pow2_lt. lia.
Qed.

(** A non-negative number that is at most an integer [n <= 2^53] rounds
    to a number of [[0, n]]. *)
Lemma round64_le_int x n :
  0 <= x -> (n <= 2 ^ 53)%Z -> x <= inject_Z n ->
  exists q, round64 x = Fin q /\ 0 <= q /\ q <= inject_Z n.
Proof.
  intros H0 Hn H. apply Qle_lteq in H0. destruct H0 as [Hx | E].
  - pose proof (rnd_le_int x n Hx Hn H) as B.
    exists (Qred (rnd x)). rewrite round64_pos; [|exact Hx|].
    + split; [reflexivity|]. rewrite Qred_correct.
      split; [apply rnd_pos, Hx | exact B].
    + eapply Qle_lt_trans; [exact B|]. apply pow2_1024_big. lia.
  - exists 0. rewrite round64_zero by (symmetry; exact E).
    split; [reflexivity|]. split; [apply Qle_refl|]. rewrite E. exact H.
Qed.

(** In the normal range the relative error is at most [2^-53]. *)
Lemma round64_err x :
  pow2 (-1022) <= x -> x <= pow2 1022 ->
  exists q, round64 x = Fin q /\ 0 < q /\
            x - x * pow2 (-53) <= q /\ q <= x + x * pow2 (-53).
Proof.
  intros Hl Hu.
  assert (Hx : 0 < x) by (eapply Qlt_le_trans; [apply (pow2_pos (-1022)) | exact Hl]).
  destruct (rnd_err x Hl) as [A B].
  assert (U : x * pow2 (-53) <= x * (1 # 2)).
  { apply Qmult_le_l; [exact Hx|]. rewrite u_eq. discriminate. }
  assert (Hb : rnd x < pow2 1024).
  { apply Qle_lt_trans with (pow2 1023); [|apply pow2_lt; lia].
    apply rnd_le_pow2; [exact Hx | lia |].
    eapply Qle_trans; [exact Hu | apply pow2_le; lia]. }
  exists (Qred (rnd x)). rewrite round64_pos by assumption.
  split; [reflexivity|]. rewrite Qred_correct.
  split; [|split; assumption]. lra.
Qed.

(** [float64(n)] is exact up to [2^53]. *)
Lemma of_int_exact n :
  (0 <= n <= 2 ^ 53)%Z -> exists q, of_int n = Fin q /\ q == inject_Z n.
Proof.
  intros [H0 Hn]. unfold of_int.
  destruct (Z.eq_dec n 0) as [E | N].
  - subst n. exists 0. split; reflexivity.
  - assert (Hp : (0 < n)%Z) by lia.
    assert (Hx : 0 < inject_Z n).
    { change 0 with (inject_Z 0). rewrite <- Zlt_Qlt. exact Hp. }
    exists (Qred (rnd (inject_Z n))). rewrite round64_pos.
    + split; [reflexivity|]. rewrite Qred_correct. apply rnd_int; lia.
    + exact Hx.
    + rewrite (rnd_int n Hp Hn). apply pow2_1024_big. lia.
Qed.

(** [float64(n)] is monotone on the non-negative [int]s. *)
Lemma of_int_mono n m :
  (0 <= n <= m)%Z -> (m < 2 ^ 63)%Z ->
  exists p q, of_int n = Fin p /\ of_int m = Fin q /\ 0 <= p /\ p <= q /\
              ((1 <= m)%Z -> 1 <= q).
Proof.
  intros [H0 Hnm] Hm. unfold of_int.
  assert (Bm : forall k, (0 < k)%Z -> (k < 2 ^ 63)%Z ->
               0 < inject_Z k /\ rnd (inject_Z k) < pow2 1024).
  { intros k Hk Hk'. split.
    - change 0 with (inject_Z 0). rewrite <- Zlt_Qlt. exact Hk.
    - apply Qle_lt_trans with (pow2 63); [|apply pow2_lt; lia].
      apply rnd_le_pow2; [|lia|].
      + change 0 with (inject_Z 0). rewrite <- Zlt_Qlt. exact Hk.
      + rewrite (pow2_Z 63) by lia. rewrite <- Zle_Qle. lia. }
  destruct (Z.eq_dec m 0) as [Em | Nm].
  - assert (n = 0%Z) by lia. subst. exists 0, 0.
    repeat split; try reflexivity; try apply Qle_refl. lia.
  - destruct (Bm m) as [Xm Rm]; [lia | lia |].
    assert (Q1 : (1 <= m)%Z -> 1 <= Qred (rnd (inject_Z m))).
    { intros _. rewrite Qred_correct. change 1 with (inject_Z 1).
      apply rnd_ge_int; [lia | lia |]. rewrite <- Zle_Qle. lia. }
    destruct (Z.eq_dec n 0) as [En | Nn].
    + subst n. exists 0, (Qred (rnd (inject_Z m))).
      rewrite (round64_pos _ Xm Rm).
      repeat split; try reflexivity; try apply Qle_refl; [|exact Q1].
      rewrite Qred_correct. apply rnd_pos, Xm.
    + destruct (Bm n) as [Xn Rn]; [lia | lia |].
      exists (Qred (rnd (inject_Z n))), (Qred (rnd (inject_Z m))).
      rewrite (round64_pos _ Xn Rn), (round64_pos _ Xm Rm).
      repeat split; try reflexivity; [| |exact Q1].
      * rewrite Qred_correct. apply rnd_pos, Xn.
      * rewrite !Qred_correct. apply rnd_mono; [exact Xn|].
        rewrite <- Zle_Qle. exact Hnm.
Qed.

Lemma is_zero_false q : ~ q == 0 -> is_zero q = false.
Proof.
  intros H. unfold is_zero. destruct (Qeq_bool q 0) eqn:E; [|reflexivity].
  apply Qeq_bool_iff in E. contradiction.
Qed.

Lemma Qfloor_nonneg q : 0 <= q -> (0 <= Qfloor q)%Z.
Proof. intros H. rewrite <- (Qfloor_Z 0). apply Qfloor_resp_le. exact H. Qed.

Lemma Qtrunc_nonneg q : 0 <= q -> Qtrunc q = Qfloor q.
Proof.
  intros H. unfold Qtrunc. apply Qle_bool_iff in H. rewrite H. reflexivity.
Qed.

(** [int(x)] of a non-negative number below [2^63] is its floor. *)
Lemma to_int_floor q :
  0 <= q -> q < inject_Z (2 ^ 63) -> to_int (Fin q) = Some (Qfloor q).
Proof.
  intros H0 Hb. unfold to_int. rewrite (Qtrunc_nonneg q H0).
  pose proof (Qfloor_nonneg q H0) as F0.
  assert (F1 : (Qfloor q < 2 ^ 63)%Z).
  { rewrite Zlt_Qlt. eapply Qle_lt_trans; [apply Qfloor_le | exact Hb]. }
  destruct (Z.leb_spec (- 2 ^ 63) (Qfloor q)); [|lia].
  destruct (Z.ltb_spec (Qfloor q) (2 ^ 63)); [reflexivity | lia].
Qed.

End Round64Facts.

(** ** Facts on the float operations of the render pass *)

Section FloatOps.
Local Open Scope Q_scope.

Lemma round64_comp x y : x == y -> round64 x = round64 y.
Proof.
  intros E. unfold round64.
  rewrite (Qcompare_comp x y E 0 0 (Qeq_refl 0)).
  destruct (Qcompare_spec y 0) as [H | H | H]; [reflexivity| |].
  - assert (Hx : 0 < - x) by (rewrite E; lra).
    assert (E' : - x == - y) by (rewrite E; reflexivity).
    pose proof (rnd_comp _ _ Hx E') as R. unfold round_pos.
    rewrite (Qleb_comp _ _ (Qeq_refl (pow2 1024)) _ _ R).
    rewrite (Qred_complete _ _ R). reflexivity.
  - assert (Hx : 0 < x) by (rewrite E; exact H).
    pose proof (rnd_comp _ _ Hx E) as R. unfold round_pos.
    rewrite (Qleb_comp _ _ (Qeq_refl (pow2 1024)) _ _ R).
    rewrite (Qred_complete _ _ R). reflexivity.
Qed.

Lemma inject_pos n : (0 < n)%Z -> 0 < inject_Z n.
Proof. intros H. change 0 with (inject_Z 0). rewrite <- Zlt_Qlt. exact H. Qed.

Lemma inject_nonzero n : (0 < n)%Z -> ~ inject_Z n == 0.
Proof. intros H E. pose proof (inject_pos n H) as P. rewrite E in P. discriminate. Qed.

(** The ratio of two positive integers below [2^31]. *)
Lemma ratio_range a b :
  (0 < a < 2 ^ 31)%Z -> (0 < b < 2 ^ 31)%Z ->
  (1 # 2147483648) <= inject_Z a / inject_Z b /\
  inject_Z a / inject_Z b <= 2147483648.
Proof.
  intros [Ha Ha'] [Hb Hb'].
  pose proof (inject_pos b Hb) as Pb.
  assert (A1 : 1 <= inject_Z a) by (change 1 with (inject_Z 1); rewrite <- Zle_Qle; lia).
  assert (A2 : inject_Z a <= 2147483648)
    by (change 2147483648 with (inject_Z 2147483648); rewrite <- Zle_Qle; lia).
  assert (B1 : 1 <= inject_Z b) by (change 1 with (inject_Z 1); rewrite <- Zle_Qle; lia).
  assert (B2 : inject_Z b <= 2147483648)
    by (change 2147483648 with (inject_Z 2147483648); rewrite <- Zle_Qle; lia).
  split.
  - apply Qle_shift_div_l; [exact Pb | lra].
  - apply Qle_shift_div_r; [exact Pb | nra].
Qed.

Lemma normal_range x :
  (1 # 1099511627776) <= x -> x <= 1099511627776 ->
  pow2 (-1022) <= x /\ x <= pow2 1022.
Proof.
  intros L U. split.
  - apply Qle_trans with (pow2 (-40)); [apply pow2_le; lia|].
    assert (E : pow2 (-40) == 1 # 1099511627776) by (vm_compute; reflexivity).
    rewrite E. exact L.
  - apply Qle_trans with (pow2 40); [|apply pow2_le; lia].
    assert (E : pow2 40 == 1099511627776) by (vm_compute; reflexivity).
    rewrite E. exact U.
Qed.

(** A quotient of two finite positive numbers, in the normal range. *)
Lemma fdiv_err p q :
  0 < p -> 0 < q ->
  (1 # 1099511627776) <= p / q -> p / q <= 1099511627776 ->
  exists r, fdiv (Fin p) (Fin q) = Fin r /\ 0 < r /\
            p / q - p / q * (1 # 9007199254740992) <= r /\
            r <= p / q + p / q * (1 # 9007199254740992).
Proof.
  intros Hp Hq L U. unfold fdiv.
  rewrite is_zero_false by (intros E; rewrite E in Hq; discriminate).
  destruct (normal_range _ L U) as [N1 N2].
  destruct (round64_err _ N1 N2) as (r & E & R0 & R1 & R2).
  exists r. rewrite u_eq in R1, R2. repeat split; assumption.
Qed.

(** A product of two finite positive numbers, in the normal range. *)
Lemma fmul_err p q :
  (1 # 1099511627776) <= p * q -> p * q <= 1099511627776 ->
  exists r, fmul (Fin p) (Fin q) = Fin r /\ 0 < r /\
            p * q - p * q * (1 # 9007199254740992) <= r /\
            r <= p * q + p * q * (1 # 9007199254740992).
Proof.
  intros L U. unfold fmul.
  destruct (normal_range _ L U) as [N1 N2].
  destruct (round64_err _ N1 N2) as (r & E & R0 & R1 & R2).
  exists r. rewrite u_eq in R1, R2. repeat split; assumption.
Qed.

(** The float quotient of two positive integers below [2^31]. *)
Lemma fdiv_ints a b :
  (0 < a < 2 ^ 31)%Z -> (0 < b < 2 ^ 31)%Z ->
  exists q, fdiv (of_int a) (of_int b) = Fin q /\ 0 < q /\
    inject_Z a / inject_Z b - inject_Z a / inject_Z b * (1 # 9007199254740992) <= q /\
    q <= inject_Z a / inject_Z b + inject_Z a / inject_Z b * (1 # 9007199254740992).
Proof.
  intros Ha Hb.
  destruct (of_int_exact a) as (pa & Ea & Va); [lia|].
  destruct (of_int_exact b) as (pb & Eb & Vb); [lia|].
  destruct (ratio_range a b Ha Hb) as [L U].
  assert (Pa : 0 < pa) by (rewrite Va; apply inject_pos; lia).
  assert (Pb : 0 < pb) by (rewrite Vb; apply inject_pos; lia).
  assert (E : pa / pb == inject_Z a / inject_Z b) by (rewrite Va, Vb; reflexivity).
  destruct (fdiv_err pa pb Pa Pb) as (r & Er & R0 & R1 & R2).
  - rewrite E. lra.
  - rewrite E. lra.
  - exists r. rewrite Ea, Eb, Er. rewrite E in R1, R2. repeat split; assumption.
Qed.

(** An integer that is within [2^-34] of the floor condition of a
    ratio [N / D], with [D < 2^31], satisfies it exactly. *)
Lemma cross_floor (k N D : Z) (X : Q) :
  (0 < D < 2 ^ 31)%Z -> X == inject_Z N / inject_Z D ->
  inject_Z k <= X + (1 # 17179869184) ->
  X - 1 - (1 # 17179869184) < inject_Z k ->
  X - 1 <= inject_Z k /\ inject_Z k <= X.
Proof.
  intros [HD HD'] EX Hu Hl.
  pose proof (inject_pos D HD) as PD.
  assert (BD : inject_Z D <= 2147483648)
    by (change 2147483648 with (inject_Z 2147483648); rewrite <- Zle_Qle; lia).
  assert (XD : X * inject_Z D == inject_Z N).
  { rewrite EX. unfold Qdiv. rewrite <- Qmult_assoc, (Qmult_comm (/ inject_Z D)).
    rewrite Qmult_inv_r by (apply inject_nonzero; exact HD). ring. }
  assert (Z1 : (k * D <= N)%Z).
  { assert (Q1 : inject_Z (k * D) < inject_Z (N + 1)).
    { rewrite inject_Z_mult, inject_Z_plus. change (inject_Z 1) with 1. nra. }
    rewrite <- Zlt_Qlt in Q1. lia. }
  assert (Z2 : (N - D <= k * D)%Z).
  { assert (Q1 : inject_Z (N - D - 1) < inject_Z (k * D)).
    { rewrite inject_Z_mult. unfold Z.sub. rewrite !inject_Z_plus, !inject_Z_opp.
      change (inject_Z 1) with 1. nra. }
    rewrite <- Zlt_Qlt in Q1. lia. }
  rewrite Zle_Qle in Z1, Z2. rewrite inject_Z_mult in Z1, Z2.
  unfold Z.sub in Z2. rewrite inject_Z_plus, inject_Z_opp in Z2.
  split; nra.
Qed.

End FloatOps.

Section FitFacts.
Local Open Scope Q_scope.
Import Render.

Lemma height_bounds (X P qp W : Q) :
  0 < X ->
  X - X * (1 # 9007199254740992) <= P -> P <= X + X * (1 # 9007199254740992) ->
  P < W + W * (1 # 9007199254740992) ->
  P - P * (1 # 9007199254740992) <= qp -> qp <= P + P * (1 # 9007199254740992) ->
  W <= 65535 ->
  qp < W + 1 /\ qp <= X + (1 # 17179869184) /\ X - (1 # 17179869184) <= qp.
Proof. intros. repeat split; lra. Qed.

Lemma width_bounds (Y D qd H : Q) :
  0 < D ->
  D - D * (1 # 9007199254740992) <= Y -> Y <= D + D * (1 # 9007199254740992) ->
  D - D * (1 # 9007199254740992) <= H ->
  D - D * (1 # 9007199254740992) <= qd -> qd <= D + D * (1 # 9007199254740992) ->
  H <= 65535 ->
  qd < H + 1 /\ qd <= Y + (1 # 17179869184) /\ Y - (1 # 17179869184) <= qd.
Proof. intros. repeat split; lra. Qed.

Lemma int_bounds n lo hi :
  (lo <= n <= hi)%Z -> inject_Z lo <= inject_Z n /\ inject_Z n <= inject_Z hi.
Proof. intros [A B]. split; rewrite <- Zle_Qle; assumption. Qed.

Lemma floor_le_int q n : q < inject_Z n + 1 -> (Qfloor q <= n)%Z.
Proof.
  intros H. destruct (floor_bounds q) as [L _].
  assert (Q1 : inject_Z (Qfloor q) < inject_Z (n + 1)).
  { rewrite inject_Z_plus. change (inject_Z 1) with 1. lra. }
  rewrite <- Zlt_Qlt in Q1. lia.
Qed.

Lemma quot2_nonneg a b : (0 <= b <= a)%Z ->
  (Z.quot (a - b) 2 = (a - b) / 2 /\ 0 <= Z.quot (a - b) 2 /\ Z.quot (a - b) 2 + b <= a)%Z.
Proof.
  intros H. rewrite Z.quot_div_nonneg by lia.
  pose proof (Z.div_pos (a - b) 2 ltac:(lia) ltac:(lia)).
  pose proof (Z.mul_div_le (a - b) 2 ltac:(lia)). lia.
Qed.

(** The two branches of [fit], with the floats they compute. *)
Lemma fit_cases srcW srcH w h :
  (0 < srcW < 2 ^ 31)%Z -> (0 < srcH < 2 ^ 31)%Z ->
  (0 < w < 65536)%Z -> (0 < h < 65536)%Z ->
  let a := inject_Z srcW / inject_Z srcH in
  exists qa qn, aspect srcW srcH = Fin qa /\ newAspect w h = Fin qn /\
  ((fgt (Fin qn) (Fin qa) = true /\
    exists qp, fmul (Fin qa) (of_int h) = Fin qp /\ 0 <= qp /\
      fit srcW srcH w h
        = Some (mkRect (Qfloor qp) h (Z.quot (w - Qfloor qp) 2) 0) /\
      (0 <= Qfloor qp <= w)%Z /\
      a * inject_Z h - 1 <= inject_Z (Qfloor qp) /\
      inject_Z (Qfloor qp) <= a * inject_Z h)
   \/
   (fgt (Fin qn) (Fin qa) = false /\
    exists qd, fdiv (of_int w) (Fin qa) = Fin qd /\ 0 <= qd /\
      fit srcW srcH w h
        = Some (mkRect w (Qfloor qd) 0 (Z.quot (h - Qfloor qd) 2)) /\
      (0 <= Qfloor qd <= h)%Z /\
      inject_Z w / a - 1 <= inject_Z (Qfloor qd) /\
      inject_Z (Qfloor qd) <= inject_Z w / a)).
Proof.
  intros HsW HsH Hw Hh a.
  destruct (fdiv_ints srcW srcH HsW HsH) as (qa & Ea & Pa & A1 & A2).
  destruct (fdiv_ints w h) as (qn & En & Pn & N1 & N2); [lia | lia |].
  fold a in A1, A2. set (n := inject_Z w / inject_Z h) in *.
  destruct (ratio_range srcW srcH HsW HsH) as [La Ua]. fold a in La, Ua.
  destruct (of_int_exact h) as (hq & Eh & Vh); [lia|].
  destruct (of_int_exact w) as (wq & Ew & Vw); [lia|].
  destruct (int_bounds h 1 65535 ltac:(lia)) as [Hh1 Hh2].
  destruct (int_bounds w 1 65535 ltac:(lia)) as [Hw1 Hw2].
  change (inject_Z 1) with 1 in Hh1, Hw1.
  change (inject_Z 65535) with 65535 in Hh2, Hw2.
  set (W := inject_Z w) in *. set (H := inject_Z h) in *.
  assert (PsH : 0 < inject_Z srcH) by (apply inject_pos; lia).
  assert (PsW : 0 < inject_Z srcW) by (apply inject_pos; lia).
  assert (PH : 0 < H) by lra.
  assert (NH : n * H == W).
  { unfold n. unfold Qdiv. rewrite <- Qmult_assoc, (Qmult_comm (/ H)).
    rewrite Qmult_inv_r by (intros E; rewrite E in PH; discriminate). ring. }
  assert (Pa0 : 0 < a) by lra.
  exists qa, qn. split; [exact Ea|]. split; [exact En|].
  unfold fit, aspect, newAspect. rewrite Ea, En.
  destruct (Qlt_le_dec qa qn) as [Hlt | Hge].
  - (* fit by height *)
    left.
    assert (G : fgt (Fin qn) (Fin qa) = true).
    { unfold fgt. destruct (Qle_bool qn qa) eqn:E; [|reflexivity].
      apply Qle_bool_iff in E. exfalso. lra. }
    split; [exact G|]. rewrite G.
    set (X := a * H).
    assert (EP : qa * hq == qa * H) by (rewrite Vh; reflexivity).
    assert (P1 : X - X * (1 # 9007199254740992) <= qa * H) by (unfold X; nra).
    assert (P2 : qa * H <= X + X * (1 # 9007199254740992)) by (unfold X; nra).
    assert (P3 : qa * H < W + W * (1 # 9007199254740992)) by nra.
    assert (X0 : 0 < X) by (unfold X; nra).
    assert (XL : (1 # 4294967296) <= qa * H) by nra.
    destruct (fmul_err qa hq) as (qp & Ep & Q0 & Q1 & Q2).
    { rewrite EP. lra. }
    { rewrite EP. lra. }
    rewrite EP in Q1, Q2.
    destruct (height_bounds X (qa * H) qp W X0 P1 P2 P3 Q1 Q2 Hw2) as (B1 & B2 & B3).
    exists qp. rewrite Eh, Ep.
    split; [reflexivity|]. split; [lra|].
    rewrite to_int_floor; [| lra |].
    2:{ apply Qlt_trans with (W + 1); [exact B1|].
        change (inject_Z (2 ^ 63)) with 9223372036854775808. lra. }
    split; [reflexivity|].
    assert (F0 : (0 <= Qfloor qp)%Z) by (apply Qfloor_nonneg; lra).
    assert (F1 : (Qfloor qp <= w)%Z) by (apply floor_le_int; exact B1).
    split; [lia|].
    destruct (floor_bounds qp) as [FL FU].
    apply (cross_floor (Qfloor qp) (srcW * h) srcH X HsH).
    + unfold X, a, H. rewrite inject_Z_mult. field.
      apply inject_nonzero. lia.
    + lra.
    + lra.
  - (* fit by width *)
    right.
    assert (G : fgt (Fin qn) (Fin qa) = false).
    { unfold fgt. apply Qle_bool_iff in Hge. rewrite Hge. reflexivity. }
    split; [exact G|]. rewrite G.
    set (D := W / qa). set (Y := W / a).
    assert (Nqa : ~ qa == 0) by (intros E; rewrite E in Pa; discriminate).
    assert (Na : ~ a == 0) by (intros E; rewrite E in Pa0; discriminate).
    assert (DQ : D * qa == W) by (unfold D; field; exact Nqa).
    assert (YA : Y * a == W) by (unfold Y; field; exact Na).
    assert (D0 : 0 < D).
    { unfold D. apply Qlt_shift_div_l; [exact Pa | lra]. }
    assert (ED : wq / qa == D) by (unfold D; rewrite Vw; reflexivity).
    assert (R1 : D - D * (1 # 9007199254740992) <= Y) by nra.
    assert (R2 : Y <= D + D * (1 # 9007199254740992)) by nra.
    assert (R3 : D - D * (1 # 9007199254740992) <= H) by nra.
    assert (DL : (1 # 4294967296) <= D) by nra.
    destruct (fdiv_err wq qa) as (qd & Ed & Q0 & Q1 & Q2).
    { rewrite Vw. lra. }
    { exact Pa. }
    { rewrite ED. lra. }
    { rewrite ED. lra. }
    rewrite ED in Q1, Q2.
    destruct (width_bounds Y D qd H D0 R1 R2 R3 Q1 Q2 Hh2) as (B1 & B2 & B3).
    exists qd. rewrite Ew, Ed.
    split; [reflexivity|]. split; [lra|].
    rewrite to_int_floor; [| lra |].
    2:{ apply Qlt_trans with (H + 1); [exact B1|].
        change (inject_Z (2 ^ 63)) with 9223372036854775808. lra. }
    split; [reflexivity|].
    assert (F0 : (0 <= Qfloor qd)%Z) by (apply Qfloor_nonneg; lra).
    assert (F1 : (Qfloor qd <= h)%Z) by (apply floor_le_int; exact B1).
    split; [lia|].
    destruct (floor_bounds qd) as [FL FU].
    apply (cross_floor (Qfloor qd) (w * srcH) srcW Y HsW).
    + unfold Y, a, W. rewrite inject_Z_mult. field.
      split; apply inject_nonzero; lia.
    + lra.
    + lra.
Qed.

End FitFacts.

(** ** The fitted rectangle *)

Section FitTheorems.
Local Open Scope Q_scope.
Import Render.

(** C1.  For every source image and window with positive sizes (sizes of
    a decoded image fit 31 bits, sizes of a window 16 bits) the render
    pass computes a fitted rectangle that lies within the window, that is
    centred (the offset is [(target - fit) / 2] on the axis that was
    fitted and [0] on the other one, where the rectangle fills the
    window), and that keeps the aspect ratio [srcW / srcH] of the source
    up to one pixel of rounding on the fitted side. *)
Theorem fit_within_centered_aspect srcW srcH w h :
  (0 < srcW < 2 ^ 31)%Z -> (0 < srcH < 2 ^ 31)%Z ->
  (0 < w < 65536)%Z -> (0 < h < 65536)%Z ->
  exists r, fit srcW srcH w h = Some r /\
    (0 <= width r <= w)%Z /\ (0 <= height r <= h)%Z /\
    (0 <= xOffset r)%Z /\ (xOffset r + width r <= w)%Z /\
    (0 <= yOffset r)%Z /\ (yOffset r + height r <= h)%Z /\
    ((height r = h /\ yOffset r = 0%Z /\
      xOffset r = ((w - width r) / 2)%Z /\
      Qabs (inject_Z (width r)
            - inject_Z srcW / inject_Z srcH * inject_Z (height r)) <= 1)
     \/
     (width r = w /\ xOffset r = 0%Z /\
      yOffset r = ((h - height r) / 2)%Z /\
      Qabs (inject_Z (height r)
            - inject_Z (width r) / (inject_Z srcW / inject_Z srcH)) <= 1)).
Proof.
  intros HsW HsH Hw Hh.
  destruct (fit_cases srcW srcH w h HsW HsH Hw Hh)
    as (qa & qn & _ & _ & [(_ & qp & _ & _ & E & F & T1 & T2)
                          | (_ & qd & _ & _ & E & F & T1 & T2)]).
  - exists (mkRect (Qfloor qp) h (Z.quot (w - Qfloor qp) 2) 0).
    split; [exact E|]. cbn [width height xOffset yOffset].
    destruct (quot2_nonneg w (Qfloor qp) F) as (Q1 & Q2 & Q3).
    repeat (split; [lia|]). left.
    repeat (split; [first [reflexivity | exact Q1]|]).
    apply Qabs_Qle_condition. split; lra.
  - exists (mkRect w (Qfloor qd) 0 (Z.quot (h - Qfloor qd) 2)).
    split; [exact E|]. cbn [width height xOffset yOffset].
    destruct (quot2_nonneg h (Qfloor qd) F) as (Q1 & Q2 & Q3).
    repeat (split; [lia|]). right.
    repeat (split; [first [reflexivity | exact Q1]|]).
    apply Qabs_Qle_condition. split; lra.
Qed.

(** The scenario of the spec: a 200x100 image in a 400x100 window. *)
Lemma fit_within_centered_aspect_witness :
  exists r, fit 200 100 400 100 = Some r /\
    (0 <= width r <= 400)%Z /\ (0 <= height r <= 100)%Z /\
    (0 <= xOffset r)%Z /\ (xOffset r + width r <= 400)%Z /\
    (0 <= yOffset r)%Z /\ (yOffset r + height r <= 100)%Z /\
    ((height r = 100%Z /\ yOffset r = 0%Z /\
      xOffset r = ((400 - width r) / 2)%Z /\
      Qabs (inject_Z (width r)
            - inject_Z 200 / inject_Z 100 * inject_Z (height r)) <= 1)
     \/
     (width r = 400%Z /\ xOffset r = 0%Z /\
      yOffset r = ((100 - height r) / 2)%Z /\
      Qabs (inject_Z (height r)
            - inject_Z (width r) / (inject_Z 200 / inject_Z 100)) <= 1)).
Proof. apply (fit_within_centered_aspect 200 100 400 100); lia. Defined.

(** The two scenarios of the spec, evaluated. *)
Example fit_scenario_open :
  fit 200 100 400 100 = Some (mkRect 200 100 100 0).
Proof. vm_compute. reflexivity. Qed.

Example fit_scenario_resize :
  fit 200 100 100 400 = Some (mkRect 100 50 0 175).
Proof. vm_compute. reflexivity. Qed.

(** The floats of the model are those of the machine on the values of
    these scenarios and of the counterexamples below. *)
Example model_agrees_div :
  of_prim (PrimFloat.div (of_uint63 7) (of_uint63 4)) = aspect 7 4 /\
  of_prim (PrimFloat.div (of_uint63 1) (of_uint63 49)) = aspect 1 49 /\
  of_prim (PrimFloat.div (of_uint63 100) (of_uint63 400))
    = fdiv (of_int 100) (of_int 400).
Proof. vm_compute. repeat split. Qed.

Example model_agrees_mul :
  of_prim (PrimFloat.mul (PrimFloat.div (of_uint63 1) (of_uint63 49)) (of_uint63 49))
    = fmul (aspect 1 49) (of_int 49) /\
  of_prim (PrimFloat.mul (of_uint63 255) (PrimFloat.div (of_uint63 100) (of_uint63 400)))
    = fmul fullAlpha (fdiv (of_int 100) (of_int 400)).
Proof. vm_compute. repeat split. Qed.

(** C8, as stated, fails: a 7x4 image in a 100x1 window is fitted by
    height, [a * targetHeight] is 1.75, which rounds to 2, and the
    fitted width is 1. *)
Lemma fit_width_is_not_rounded :
  fgt (newAspect 100 1) (aspect 7 4) = true /\
  fit 7 4 100 1 = Some (mkRect 1 1 49 0) /\
  round_nearest (inject_Z 7 / inject_Z 4 * inject_Z 1) = 2%Z /\
  option_map width (fit 7 4 100 1)
    <> Some (round_nearest (inject_Z 7 / inject_Z 4 * inject_Z 1)).
Proof. vm_compute. repeat split. discriminate. Qed.

(** C8, amended.  For positive sizes, in the fit-by-height branch (the
    float target aspect is greater than the float source aspect [a]) the
    fitted width is the float product [a * targetHeight] with its
    fraction discarded, which is at most the exact [srcW / srcH *
    targetHeight] and at most one pixel below it; otherwise the fitted height is the float quotient [targetWidth / a]
    with its fraction discarded, with the same bounds around
    [targetWidth / (srcW / srcH)]. *)
Theorem fit_truncates srcW srcH w h :
  (0 < srcW < 2 ^ 31)%Z -> (0 < srcH < 2 ^ 31)%Z ->
  (0 < w < 65536)%Z -> (0 < h < 65536)%Z ->
  exists r, fit srcW srcH w h = Some r /\
    if fgt (newAspect w h) (aspect srcW srcH)
    then height r = h /\
         exists q, fmul (aspect srcW srcH) (of_int h) = Fin q /\
           width r = Qfloor q /\
           inject_Z srcW / inject_Z srcH * inject_Z h - 1 <= inject_Z (width r) /\
           inject_Z (width r) <= inject_Z srcW / inject_Z srcH * inject_Z h
    else width r = w /\
         exists q, fdiv (of_int w) (aspect srcW srcH) = Fin q /\
           height r = Qfloor q /\
           inject_Z w / (inject_Z srcW / inject_Z srcH) - 1 <= inject_Z (height r) /\
           inject_Z (height r) <= inject_Z w / (inject_Z srcW / inject_Z srcH).
Proof.
  intros HsW HsH Hw Hh.
  destruct (fit_cases srcW srcH w h HsW HsH Hw Hh)
    as (qa & qn & Ea & En & [(G & qp & Ep & _ & E & _ & T1 & T2)
                            | (G & qd & Ed & _ & E & _ & T1 & T2)]).
  - exists (mkRect (Qfloor qp) h (Z.quot (w - Qfloor qp) 2) 0).
    split; [exact E|]. rewrite Ea, En, G. cbn [width height].
    split; [reflexivity|]. exists qp. repeat split; assumption.
  - exists (mkRect w (Qfloor qd) 0 (Z.quot (h - Qfloor qd) 2)).
    split; [exact E|]. rewrite Ea, En, G. cbn [width height].
    split; [reflexivity|]. exists qd. repeat split; assumption.
Qed.

Lemma fit_truncates_witness :
  exists r, fit 7 4 100 1 = Some r /\
    if fgt (newAspect 100 1) (aspect 7 4)
    then height r = 1%Z /\
         exists q, fmul (aspect 7 4) (of_int 1) = Fin q /\
           width r = Qfloor q /\
           inject_Z 7 / inject_Z 4 * inject_Z 1 - 1 <= inject_Z (width r) /\
           inject_Z (width r) <= inject_Z 7 / inject_Z 4 * inject_Z 1
    else width r = 100%Z /\
         exists q, fdiv (of_int 100) (aspect 7 4) = Fin q /\
           height r = Qfloor q /\
           inject_Z 100 / (inject_Z 7 / inject_Z 4) - 1 <= inject_Z (height r) /\
           inject_Z (height r) <= inject_Z 100 / (inject_Z 7 / inject_Z 4).
Proof. apply (fit_truncates 7 4 100 1); lia. Defined.

End FitTheorems.

(** ** The model and the machine agree *)

Section MachineAgreement.
Import Render.

(** On every pair of the listed source sizes and every pair of the
    listed window sizes, the fit computed with the binary64 numbers of
    the kernel is the fit of the model. *)
Example fit_agrees_with_machine :
  forallb (fun srcW => forallb (fun srcH => Machine.agree_fit srcW srcH)
                         Machine.sizes) Machine.sizes = true.
Proof. vm_compute. reflexivity. Qed.

(** For every click position in windows 400, 255 and 1000 wide, the
    mask alpha computed on the machine is that of the model. *)
Example mask_agrees_with_machine :
  Machine.agree_mask 400 = true /\ Machine.agree_mask 255 = true /\
  Machine.agree_mask 1000 = true.
Proof. vm_compute. repeat split. Qed.

(** Ties to even, the subnormal grid and the overflow, on the smallest
    positive number [2^-1074] and on [2^1023]. *)
Example rounding_edges :
  fmul (Fin (pow2 (-1074))) (Fin (1 # 2)) = Fin 0 /\
  fmul (Fin (pow2 (-1074))) (Fin (3 # 2)) = Fin (Qred (2 * pow2 (-1074))) /\
  fmul (Fin (pow2 1023)) (Fin 2) = Inf false /\
  fdiv (Fin 1) (Fin 0) = Inf false /\
  fdiv (Fin 0) (Fin 0) = NaN.
Proof. vm_compute. repeat split. Qed.

End MachineAgreement.

(** ** The opacity mask *)

Section MaskTheorems.
Local Open Scope Q_scope.
Import Render.

(** C3, as stated, fails: with opacity 0.25 the alpha of the mask is 63,
    and so is the output alpha of an opaque pixel, while
    [round(255 * 0.25)] is 64. *)
Lemma mask_alpha_is_not_rounded :
  maskAlpha (Fin (1 # 4)) = Some 63%Z /\
  maskedAlpha 255 63 = 63%Z /\
  round_nearest (255 * (1 # 4)) = 64%Z /\
  maskAlpha (Fin (1 # 4)) <> Some (round_nearest (255 * (1 # 4))).
Proof. vm_compute. repeat split. discriminate. Qed.

(** C3, amended.  For every opacity in [[0,1]] the alpha of the uniform
    mask is the float product [255 * opacity] with its fraction
    discarded, a number of 0..255, and the output alpha of an originally
    opaque pixel is that number. *)
Theorem mask_alpha_truncates q :
  0 <= q -> q <= 1 ->
  exists p a, fmul fullAlpha (Fin q) = Fin p /\
    maskAlpha (Fin q) = Some a /\ a = Qfloor p /\
    (0 <= a <= 255)%Z /\ maskedAlpha 255 a = a.
Proof.
  intros H0 H1. unfold maskAlpha, fullAlpha, fmul.
  destruct (round64_le_int (255 * q) 255) as (p & E & P0 & P1);
    [nra | lia | change (inject_Z 255) with 255; nra |].
  change (inject_Z 255) with 255 in P1.
  exists p, (Qfloor p). rewrite E. split; [reflexivity|].
  pose proof (Qfloor_nonneg p P0) as F0.
  assert (F1 : (Qfloor p <= 255)%Z).
  { apply floor_le_int. change (inject_Z 255) with 255. lra. }
  unfold to_uint8. rewrite (Qtrunc_nonneg p P0).
  destruct (Z.leb_spec 0 (Qfloor p)); [|lia].
  destruct (Z.ltb_spec (Qfloor p) 256); [|lia].
  split; [reflexivity|]. split; [reflexivity|]. split; [lia|].
  unfold maskedAlpha. rewrite Z.mul_comm. apply Z.div_mul. lia.
Qed.

Lemma mask_alpha_truncates_witness :
  exists p a, fmul fullAlpha (Fin (1 # 4)) = Fin p /\
    maskAlpha (Fin (1 # 4)) = Some a /\ a = Qfloor p /\
    (0 <= a <= 255)%Z /\ maskedAlpha 255 a = a.
Proof. apply (mask_alpha_truncates (1 # 4)); discriminate. Defined.

(** Opacity 1 leaves the alpha unchanged, opacity 0 makes the pixel
    transparent. *)
Example mask_alpha_ends :
  maskAlpha (Fin 1) = Some 255%Z /\ maskAlpha (Fin 0) = Some 0%Z.
Proof. vm_compute. split; reflexivity. Qed.

End MaskTheorems.

(** ** The event handler *)

Section EventTheorems.
Local Open Scope Q_scope.
Import Events.

(** C9.  A button press stores the float quotient of the clamped pointer
    position by the window width as the opacity and requests a redraw
    (the flag is set and the deadline is 50ms from now); the clamped
    position lies in [[0, windowWidth]], and for a window of positive
    width the stored number is the exact quotient up to one float
    rounding. *)
Theorem button_press_sets_opacity now ex d :
  handle now (ButtonPressEvent ex) d
    = inl (mkWin (fdiv (of_int (clampedX d ex)) (of_int (windowWidth d)))
                 (windowWidth d) (windowHeight d) (now + 50 * ms) true) /\
  ((0 <= windowWidth d)%Z ->
     (0 <= clampedX d ex <= windowWidth d)%Z /\
     ((0 <= ex <= windowWidth d)%Z -> clampedX d ex = ex)) /\
  ((0 < windowWidth d < 2 ^ 31)%Z ->
     exists q, fdiv (of_int (clampedX d ex)) (of_int (windowWidth d)) = Fin q /\
       Qabs (q - inject_Z (clampedX d ex) / inject_Z (windowWidth d))
       <= inject_Z (clampedX d ex) / inject_Z (windowWidth d)
          * (1 # 9007199254740992)).
Proof.
  split; [reflexivity|]. split.
  - intros Hw. unfold clampedX. split; lia.
  - intros Hw. set (x := clampedX d ex).
    assert (Hx : (0 <= x <= windowWidth d)%Z) by (unfold x, clampedX; lia).
    destruct (Z.eq_dec x 0) as [E | N].
    + rewrite E. exists 0. split.
      * destruct (of_int_exact (windowWidth d)) as (pw & Ew & Vw); [lia|].
        rewrite Ew. change (of_int 0) with (Fin 0). unfold fdiv.
        rewrite is_zero_false.
        -- apply round64_zero. unfold Qdiv. ring.
        -- rewrite Vw. apply inject_nonzero. lia.
      * assert (Z0 : inject_Z 0 / inject_Z (windowWidth d) == 0)
          by (unfold Qdiv; ring).
        rewrite Z0. apply Qabs_Qle_condition. split; discriminate.
    + destruct (fdiv_ints x (windowWidth d)) as (q & Eq & _ & Q1 & Q2);
        [lia | lia |].
      exists q. split; [exact Eq|]. apply Qabs_Qle_condition. split; lra.
Qed.

(** The scenario of the spec: a click at x=100 in a window 400 wide. *)
Example click_100_of_400 :
  handle 0 (ButtonPressEvent 100) (initial (Fin (1 # 2)) 400 100)
    = inl (mkWin (Fin (1 # 4)) 400 100 (50 * ms) true).
Proof. vm_compute. reflexivity. Qed.

(** C10, as stated, fails: a resize notification of width 0 followed by
    a button press stores [0.0 / 0.0], which is not a number. *)
Lemma zero_width_breaks_opacity :
  Forall well_formed [ConfigureNotifyEvent 0 100; ButtonPressEvent 10] /\
  unit_interval (imageOpacity (initial (Fin (1 # 2)) 400 100)) /\
  imageOpacity
    (fst (HandleEvents [(0%Z, ConfigureNotifyEvent 0 100); (1%Z, ButtonPressEvent 10)]
            (initial (Fin (1 # 2)) 400 100))) = NaN.
Proof.
  split; [repeat constructor; simpl; lia|].
  split; [simpl; split; discriminate | vm_compute; reflexivity].
Qed.

(** What the loop keeps: an opacity of [[0,1]] and a positive width. *)
Lemma handle_keeps now ev d d' :
  unit_interval (imageOpacity d) -> (1 <= windowWidth d < 2 ^ 63)%Z ->
  well_formed ev -> nonzero_width ev ->
  handle now ev d = inl d' ->
  unit_interval (imageOpacity d') /\ (1 <= windowWidth d' < 2 ^ 63)%Z.
Proof.
  intros Hop Hw Hwf Hnz E. destruct ev as [w h | ex | | | |]; simpl in E.
  - simpl in Hwf, Hnz.
    destruct (negb (windowWidth d =? w)%Z || negb (windowHeight d =? h)%Z);
      inversion E; subst; simpl; split; try assumption; lia.
  - inversion E; subst; clear E. cbn [imageOpacity windowWidth requestRedraw].
    split; [|exact Hw].
    assert (Hx : (0 <= clampedX d ex <= windowWidth d)%Z) by (unfold clampedX; lia).
    destruct (of_int_mono _ _ Hx ltac:(lia)) as (p & q & Ep & Eq & P0 & Pq & Q1).
    specialize (Q1 ltac:(lia)).
    rewrite Ep, Eq. unfold fdiv.
    rewrite is_zero_false by (intros Z0; lra).
    assert (Q0 : 0 < q) by lra.
    destruct (round64_le_int (p / q) 1) as (r & Er & R0 & R1).
    + apply Qle_shift_div_l; [exact Q0 | lra].
    + lia.
    + change (inject_Z 1) with 1. apply Qle_shift_div_r; [exact Q0 | lra].
    + rewrite Er. simpl. change (inject_Z 1) with 1 in R1. split; assumption.
  - discriminate.
  - inversion E; subst. split; assumption.
  - inversion E; subst. split; assumption.
  - discriminate.
Qed.

(** C10, amended.  From the initial state (opacity in [[0,1]], window of
    the sizes of the image, the width at least 1) the stored opacity is a
    number of [[0,1]] after every finite sequence of events whose resize
    notifications report a width of at least 1. *)
Theorem opacity_stays_in_unit_interval opacity imgW imgH evs :
  unit_interval opacity -> (1 <= imgW < 2 ^ 63)%Z ->
  Forall (fun e => well_formed (snd e) /\ nonzero_width (snd e)) evs ->
  unit_interval (imageOpacity (fst (HandleEvents evs (initial opacity imgW imgH)))).
Proof.
  intros Hop Hw Hall.
  assert (G : forall d, unit_interval (imageOpacity d) ->
                (1 <= windowWidth d < 2 ^ 63)%Z ->
                unit_interval (imageOpacity (fst (HandleEvents evs d)))).
  { induction Hall as [| [now ev] rest [Hwf Hnz] _ IH]; intros d Hd Hwd.
    - exact Hd.
    - simpl. destruct (handle now ev d) as [d' | r] eqn:E.
      + destruct (handle_keeps now ev d d' Hd Hwd Hwf Hnz E) as [A B].
        apply IH; assumption.
      + exact Hd. }
  apply G; assumption.
Qed.

Lemma opacity_stays_in_unit_interval_witness :
  unit_interval
    (imageOpacity
       (fst (HandleEvents
               [(0%Z, ConfigureNotifyEvent 100 400); (1%Z, ButtonPressEvent 100);
                (2%Z, ButtonPressEvent (-5)); (3%Z, DestroyNotifyEvent)]
               (initial (Fin (1 # 2)) 400 100)))).
Proof.
  apply (opacity_stays_in_unit_interval (Fin (1 # 2)) 400 100).
  - simpl. split; discriminate.
  - lia.
  - repeat constructor; simpl; lia.
Defined.

End EventTheorems.

(** ** The packing loop *)

Section PackTheorems.
Import Pack.
Local Open Scope Z_scope.

Lemma uint8_high_bits c n : is_uint8 c -> 8 <= n -> Z.testbit c n = false.
Proof.
  intros [H0 H1] Hn. destruct (Z.eq_dec c 0) as [-> | N]; [apply Z.bits_0|].
  apply Z.bits_above_log2; [lia|].
  apply Z.lt_le_trans with 8; [|exact Hn].
  apply Z.log2_lt_pow2; [lia | change (2 ^ 8) with 256; lia].
Qed.

Lemma byte_widen c : is_uint8 c -> byte (widen c) = c.
Proof.
  intros Hc. unfold byte, widen. change 255 with (Z.ones 8).
  apply Z.bits_inj'. intros n Hn.
  rewrite Z.land_spec, Z.lor_spec.
  destruct (Z.lt_ge_cases n 8) as [L | G].
  - rewrite Z.shiftl_spec_low by lia.
    rewrite Z.ones_spec_low by lia.
    rewrite orb_false_r, andb_true_r. reflexivity.
  - rewrite Z.ones_spec_high by lia. rewrite andb_false_r.
    symmetry. apply uint8_high_bits; assumption.
Qed.

Lemma pack_pixel_bgra c : valid c -> pack_pixel c = [B c; G c; R c; A c].
Proof.
  intros (HR & HG & HB & HA). unfold pack_pixel, RGBA_method.
  rewrite !byte_widen by assumption. reflexivity.
Qed.

Lemma fold_left_append {X : Type} (f : X -> list Z) l acc :
  fold_left (fun data x => data ++ f x) l acc = acc ++ flat_map f l.
Proof.
  revert acc. induction l as [| x l IH]; intros acc; simpl.
  - symmetry. apply app_nil_r.
  - rewrite IH, <- app_assoc. reflexivity.
Qed.

Lemma flat_map_of_map {X Y W : Type} (g : X -> Y) (f : Y -> list W) l :
  flat_map f (map g l) = flat_map (fun x => f (g x)) l.
Proof.
  induction l as [| x l IH]; simpl; [reflexivity|]. rewrite IH. reflexivity.
Qed.

Lemma rows_fold (img : Z -> Z -> RGBA) w (l : list Z) acc :
  fold_left
    (fun data y =>
       fold_left (fun data x => data ++ pack_pixel (img x y)) (range w) data)
    l acc
  = acc ++ flat_map pack_pixel
             (flat_map (fun y => map (fun x => img x y) (range w)) l).
Proof.
  revert acc. induction l as [| y l IH]; intros acc; simpl.
  - symmetry. apply app_nil_r.
  - rewrite IH, fold_left_append, flat_map_app, flat_map_of_map, app_assoc.
    reflexivity.
Qed.

Lemma pack_image_flat img w h :
  pack_image img w h = flat_map pack_pixel (pixels img w h).
Proof. unfold pack_image, pixels. rewrite rows_fold. reflexivity. Qed.

Lemma in_range x n : In x (range n) -> 0 <= x < n.
Proof.
  unfold range. rewrite in_map_iff. intros (k & E & Hk).
  apply in_seq in Hk. lia.
Qed.

Lemma pixels_valid img w h :
  (forall x y, 0 <= x < w -> 0 <= y < h -> valid (img x y)) ->
  Forall valid (pixels img w h).
Proof.
  intros H. apply Forall_forall. intros c Hc. unfold pixels in Hc.
  apply in_flat_map in Hc. destruct Hc as (y & Hy & Hc).
  apply in_map_iff in Hc. destruct Hc as (x & E & Hx). subst c.
  apply H; apply in_range; assumption.
Qed.

Lemma unpack_pack ps :
  Forall valid ps -> unpack_image (flat_map pack_pixel ps) = ps.
Proof.
  induction 1 as [| c ps Hc _ IH]; [reflexivity|].
  cbn [flat_map]. rewrite (pack_pixel_bgra c Hc). simpl. rewrite IH.
  destruct c. reflexivity.
Qed.

Lemma range_length n : List.length (range n) = Z.to_nat n.
Proof. unfold range. rewrite length_map, length_seq. reflexivity. Qed.

Lemma pixels_length img w h :
  List.length (pixels img w h) = (Z.to_nat h * Z.to_nat w)%nat.
Proof.
  unfold pixels. rewrite <- (range_length h).
  induction (range h) as [| y l IH]; simpl; [reflexivity|].
  rewrite length_app, length_map, range_length, IH. reflexivity.
Qed.

Lemma packed_length ps :
  List.length (flat_map pack_pixel ps) = (4 * List.length ps)%nat.
Proof.
  induction ps as [| c ps IH]; [reflexivity|].
  cbn [flat_map]. rewrite length_app, IH. simpl. lia.
Qed.

Lemma range_nth n i :
  (i < Z.to_nat n)%nat -> nth_error (range n) i = Some (Z.of_nat i).
Proof.
  intros H. unfold range. rewrite nth_error_map.
  rewrite nth_error_nth' with (d := 0%nat) by (rewrite length_seq; exact H).
  rewrite seq_nth by exact H. reflexivity.
Qed.

Lemma rows_nth {X Y : Type} (f : X -> list Y) n l i j x :
  (forall y, List.length (f y) = n) ->
  nth_error l i = Some x -> (j < n)%nat ->
  nth_error (flat_map f l) (i * n + j) = nth_error (f x) j.
Proof.
  intros Hn. revert i. induction l as [| y l IH]; intros i Hi Hj.
  - destruct i; discriminate.
  - destruct i as [| i]; simpl in Hi.
    + inversion Hi; subst. simpl. apply nth_error_app1. rewrite Hn. exact Hj.
    + cbn [flat_map]. rewrite nth_error_app2 by (rewrite Hn; simpl; lia).
      rewrite Hn. replace (S i * n + j - n)%nat with (i * n + j)%nat by (simpl; lia).
      apply IH; assumption.
Qed.

Lemma pixels_nth img w h x y :
  0 <= x < w -> 0 <= y < h ->
  nth_error (pixels img w h) (Z.to_nat y * Z.to_nat w + Z.to_nat x) = Some (img x y).
Proof.
  intros Hx Hy. unfold pixels.
  rewrite (rows_nth _ (Z.to_nat w) _ _ _ (Z.of_nat (Z.to_nat y))).
  - rewrite nth_error_map, range_nth by lia. simpl. f_equal. f_equal; lia.
  - intros y'. rewrite length_map. apply range_length.
  - apply range_nth. lia.
  - lia.
Qed.

Lemma packed_skipn k ps :
  skipn (4 * k) (flat_map pack_pixel ps) = flat_map pack_pixel (skipn k ps).
Proof.
  revert ps. induction k as [| k IH]; intros ps; [reflexivity|].
  destruct ps as [| c ps]; [reflexivity|].
  replace (4 * S k)%nat with (4 + 4 * k)%nat by lia.
  cbn [flat_map skipn]. unfold pack_pixel at 1.
  destruct (RGBA_method c) as [[[r g] b] a]. simpl. apply IH.
Qed.

Lemma skipn_nth {X : Type} (l : list X) k c :
  nth_error l k = Some c -> exists rest, skipn k l = c :: rest.
Proof.
  revert l. induction k as [| k IH]; intros [| a l] H; try discriminate.
  - inversion H; subst. eexists. reflexivity.
  - simpl. apply IH. exact H.
Qed.

Lemma packed_at img w h x y :
  0 <= x < w -> 0 <= y < h ->
  firstn 4 (skipn (Z.to_nat (4 * (y * w + x))) (flat_map pack_pixel (pixels img w h)))
  = pack_pixel (img x y).
Proof.
  intros Hx Hy.
  replace (Z.to_nat (4 * (y * w + x)))
    with (4 * (Z.to_nat y * Z.to_nat w + Z.to_nat x))%nat by nia.
  rewrite packed_skipn.
  destruct (skipn_nth _ _ _ (pixels_nth img w h x y Hx Hy)) as [rest E].
  rewrite E. cbn [flat_map]. unfold pack_pixel at 1.
  destruct (RGBA_method (img x y)) as [[[r g] b] a] eqn:M. simpl.
  unfold pack_pixel. rewrite M. reflexivity.
Qed.

(** The data, and what is read back from them, in terms of the pixels in
    the order of the loops. *)
Lemma pack_image_of_pixels img w h :
  (forall x y, 0 <= x < w -> 0 <= y < h -> valid (img x y)) ->
  pack_image img w h
    = flat_map (fun c => [B c; G c; R c; A c]) (pixels img w h) /\
  unpack_image (pack_image img w h) = pixels img w h.
Proof.
  intros H. pose proof (pixels_valid img w h H) as V.
  rewrite pack_image_flat. split.
  - induction V as [| c ps Hc _ IH]; [reflexivity|].
    cbn [flat_map]. rewrite IH, (pack_pixel_bgra c Hc). reflexivity.
  - apply unpack_pack, V.
Qed.

(** C5.  The packing loops emit every pixel of the frame, row after row:
    the data hold four bytes for each of the [w * h] pixels, the four
    bytes at the offset [4 * (y * w + x)] are the blue, green, red and
    alpha bytes of the pixel at column [x] of row [y], in that order,
    and reading the groups of four bytes back in that order gives
    [w * h] pixels, the one at the index [y * w + x] with the 8-bit RGBA
    values of that pixel. *)
Theorem pack_emits_every_pixel_as_bgra img w h :
  (forall x y, 0 <= x < w -> 0 <= y < h -> valid (img x y)) ->
  Z.of_nat (List.length (pack_image img w h)) = 4 * (Z.max 0 w * Z.max 0 h) /\
  Z.of_nat (List.length (unpack_image (pack_image img w h))) = Z.max 0 w * Z.max 0 h /\
  forall x y, 0 <= x < w -> 0 <= y < h ->
    firstn 4 (skipn (Z.to_nat (4 * (y * w + x))) (pack_image img w h))
      = [B (img x y); G (img x y); R (img x y); A (img x y)] /\
    nth_error (unpack_image (pack_image img w h)) (Z.to_nat (y * w + x))
      = Some (img x y).
Proof.
  intros H. destruct (pack_image_of_pixels img w h H) as [_ U].
  rewrite U. rewrite pack_image_flat, packed_length, pixels_length.
  split; [lia|]. split; [lia|].
  intros x y Hx Hy. split.
  - rewrite (packed_at img w h x y Hx Hy). apply pack_pixel_bgra, H; assumption.
  - replace (Z.to_nat (y * w + x))
      with (Z.to_nat y * Z.to_nat w + Z.to_nat x)%nat by nia.
    apply pixels_nth; assumption.
Qed.

Lemma pack_emits_every_pixel_as_bgra_witness :
  Z.of_nat (List.length (pack_image (fun x y => mkRGBA (10 + x) (20 + y) 30 255) 3 2))
    = 4 * (Z.max 0 3 * Z.max 0 2) /\
  Z.of_nat (List.length
              (unpack_image (pack_image (fun x y => mkRGBA (10 + x) (20 + y) 30 255) 3 2)))
    = Z.max 0 3 * Z.max 0 2 /\
  forall x y, 0 <= x < 3 -> 0 <= y < 2 ->
    firstn 4 (skipn (Z.to_nat (4 * (y * 3 + x)))
                (pack_image (fun x y => mkRGBA (10 + x) (20 + y) 30 255) 3 2))
      = [B ((fun x y => mkRGBA (10 + x) (20 + y) 30 255) x y);
         G ((fun x y => mkRGBA (10 + x) (20 + y) 30 255) x y);
         R ((fun x y => mkRGBA (10 + x) (20 + y) 30 255) x y);
         A ((fun x y => mkRGBA (10 + x) (20 + y) 30 255) x y)] /\
    nth_error (unpack_image (pack_image (fun x y => mkRGBA (10 + x) (20 + y) 30 255) 3 2))
      (Z.to_nat (y * 3 + x))
      = Some ((fun x y => mkRGBA (10 + x) (20 + y) 30 255) x y).
Proof.
  apply (pack_emits_every_pixel_as_bgra
           (fun x y => mkRGBA (10 + x) (20 + y) 30 255) 3 2).
  intros x y Hx Hy. unfold valid, is_uint8. cbn [R G B A]. lia.
Defined.

(** The pixel at column 2 of row 1 of a frame of three columns: its bytes
    start at the offset 20, and it is read back at the index 5. *)
Example pack_pixel_2_1 :
  firstn 4 (skipn 20 (pack_image (fun x y => mkRGBA (10 + x) (20 + y) 30 255) 3 2))
    = [30; 21; 12; 255] /\
  nth_error (unpack_image (pack_image (fun x y => mkRGBA (10 + x) (20 + y) 30 255) 3 2)) 5
    = Some (mkRGBA 12 21 30 255).
Proof. split; reflexivity. Qed.

Example pack_two_pixels :
  pack_image (fun x y => mkRGBA (10 + x) (20 + y) 30 255) 2 1
    = [30; 20; 10; 255; 30; 20; 11; 255].
Proof. reflexivity. Qed.

End PackTheorems.

(** ** The shared-memory transfer *)

Section TransferTheorems.
Import Transfer.
Local Open Scope string_scope.
Local Open Scope list_scope.

Ltac answer w :=
  repeat match goal with
         | |- context [match w ?c with _ => _ end] =>
             let E := fresh "E" in destruct (w c) eqn:E; simpl
         | H : w ?c = _ |- context [w ?c] => rewrite H; simpl
         end.

Lemma first_error_same w1 w2 :
  same_steps w1 w2 -> first_error w1 steps = first_error w2 steps.
Proof.
  intros H. unfold steps. simpl.
  rewrite <- !H by reflexivity. reflexivity.
Qed.

Lemma transfer_result w : fst (transfer w) = first_error w steps.
Proof.
  unfold transfer, do_call, steps. simpl. answer w; reflexivity.
Qed.

Lemma transfer_trace w :
  trace (snd (transfer w))
  = attempted w steps ++ rev (flat_map cleanup_of (completed w steps)).
Proof.
  unfold transfer, unwind, run_deferred, do_call, start, steps. simpl.
  answer w; reflexivity.
Qed.

Lemma transfer_stdout w :
  stdout (snd (transfer w))
  = cleanup_lines w (rev (flat_map cleanup_of (completed w steps))).
Proof.
  unfold transfer, unwind, run_deferred, do_call, start, steps, cleanup_lines.
  simpl. answer w; reflexivity.
Qed.

Lemma transfer_releases w :
  w DetachChecked = None -> w SysvShmDetach = None -> w SysvShmCtlRmid = None ->
  res (snd (transfer w)) = mkRes false false false.
Proof.
  intros E1 E2 E3.
  unfold transfer, unwind, run_deferred, do_call, start. simpl.
  rewrite ?E1, ?E2, ?E3. simpl.
  answer w; rewrite ?E1, ?E2, ?E3; reflexivity.
Qed.

(** C4.  Whatever each call answers, the transfer returns the error of
    the first of its steps that fails (segment creation, process attach,
    byte copy, the two calls of the server attach, put-image) and [nil]
    when none fails; after the calls made up to there, the cleanups of
    the setup steps that completed run in reverse order (server detach,
    process detach, removal of the segment); a cleanup that fails prints
    a line and changes nothing to the result, which is the same in two
    worlds that answer the steps alike; when the cleanups succeed nothing
    stays attached or allocated. *)
Theorem transfer_cleans_up_in_reverse w :
  fst (transfer w) = first_error w steps /\
  trace (snd (transfer w))
    = attempted w steps ++ rev (flat_map cleanup_of (completed w steps)) /\
  stdout (snd (transfer w))
    = cleanup_lines w (rev (flat_map cleanup_of (completed w steps))) /\
  (forall w', same_steps w w' -> fst (transfer w') = fst (transfer w)) /\
  (w DetachChecked = None -> w SysvShmDetach = None -> w SysvShmCtlRmid = None ->
   res (snd (transfer w)) = mkRes false false false).
Proof.
  split; [apply transfer_result|].
  split; [apply transfer_trace|].
  split; [apply transfer_stdout|].
  split; [|apply transfer_releases].
  intros w' H. rewrite !transfer_result. symmetry. apply first_error_same, H.
Qed.

(** A transfer that succeeds, and one whose put-image fails while the
    server detach fails too: the server stays attached, so the segment
    outlives its removal. *)
Example transfer_success :
  transfer (fun _ => None)
  = (None,
     mkT [SysvShmGet; SysvShmAttach; CopyBytes; NewSegId; AttachChecked;
          PutImageChecked; DetachChecked; SysvShmDetach; SysvShmCtlRmid]
         [] (mkRes false false false)).
Proof. reflexivity. Qed.

Example transfer_put_image_fails :
  transfer (fun c => match c with
                     | PutImageChecked => Some "BadMatch"
                     | DetachChecked => Some "BadSeg"
                     | _ => None
                     end)
  = (Some "put image: BadMatch",
     mkT [SysvShmGet; SysvShmAttach; CopyBytes; NewSegId; AttachChecked;
          PutImageChecked; DetachChecked; SysvShmDetach; SysvShmCtlRmid]
         ["detach from shared memory (X): BadSeg"] (mkRes true false true)).
Proof. reflexivity. Qed.

Example transfer_attach_fails :
  transfer (fun c => match c with
                     | SysvShmAttach => Some "ENOMEM"
                     | _ => None
                     end)
  = (Some "attach to shared memory segment: ENOMEM",
     mkT [SysvShmGet; SysvShmAttach; SysvShmCtlRmid] [] (mkRes false false false)).
Proof. reflexivity. Qed.

End TransferTheorems.

(** ** The exit of the process *)

Section ProcessTheorems.
Import Process.
Local Open Scope string_scope.







(** Whatever happens, the exit status is 0. *)
Lemma main_exits_zero i : status (main i) = 0%Z.
Proof. unfold main. destruct (run i); reflexivity. Qed.

(** A request for help runs nothing and is no error. *)
Lemma help_is_not_fatal i :
  flag_error i = None -> help i = true -> main i = mkProcess (xlog i) 0.
Proof. intros Hf Hh. unfold main, run, Execute. rewrite Hf, Hh. reflexivity. Qed.




Example decode_failure_line :
  main (mkInvocation None false []
          (mkWorld None false None (Some "unknown format") None None None false))
  = mkProcess
      ["run command: new display: load image: decode image: unknown format"] 0.
Proof. reflexivity. Qed.

(** A flag that does not parse is fatal even when help is asked for, and
    a request for help hides a missing argument. *)
Example flag_error_before_help :
  main (mkInvocation (Some "invalid argument") true []
          (mkWorld None false None None None None None false))
  = mkProcess ["run command: invalid argument"] 0 /\
  main (mkInvocation None true []
          (mkWorld (Some "accepts 1 arg(s), received 0") false None None None None None false))
  = mkProcess [] 0.
Proof. split; reflexivity. Qed.

End ProcessTheorems.

(** ** The renderer goroutine and [Close] *)

Section SchedTheorems.
Import Events Sched.
Local Open Scope Z_scope.

Lemma init_consistent w : consistent (init w).
Proof. unfold consistent, init. simpl. auto. Qed.

Ltac crush_step :=
  repeat match goal with
         | H : Some _ = Some _ |- _ => inversion H; subst; clear H
         | H : None = Some _ |- _ => discriminate H
         | H : context [if ?c then _ else _] |- _ => destruct c eqn:?
         | H : _ /\ _ |- _ => destruct H
         end.

Lemma renderer_step_consistent s s' :
  consistent s -> renderer_step s = Some s' -> consistent s'.
Proof.
  unfold consistent, renderer_step. intros [W M] E.
  destruct s as [ck wn cn co g r m rq ps us]. simpl in *.
  destruct r; simpl in E; crush_step; simpl;
    (split; [lia|]); destruct m; simpl in *; crush_step;
    repeat split; auto; congruence.
Qed.

Lemma step_consistent l s s' :
  consistent s -> step l s = Some s' -> consistent s'.
Proof.
  intros C E. destruct l; simpl in E;
    try (eapply renderer_step_consistent; eassumption).
  - destruct (0 <=? d); inversion E; subst. exact C.
  - destruct (main s) eqn:M; inversion E; subst.
    unfold consistent in *. simpl. rewrite M in *. exact C.
  - destruct (main s) eqn:M; inversion E; subst.
    unfold consistent in *. simpl. rewrite M in C.
    destruct C as (W & _ & O). auto.
  - destruct (main s) eqn:M; inversion E; subst.
    unfold consistent in *. simpl. rewrite M in C.
    destruct C as (W & A & _). auto.
  - destruct (main s) eqn:M; try discriminate.
    destruct (wg s =? 0) eqn:G; inversion E; subst.
    unfold consistent in *. simpl. rewrite M in C.
    destruct C as (W & A & O). apply Z.eqb_eq in G.
    repeat split; auto. destruct (renderer s); auto; lia.
Qed.

Lemma run_consistent ls s s' :
  consistent s -> run ls s = Some s' -> consistent s'.
Proof.
  revert s. induction ls as [| l ls IH]; intros s C E; simpl in E.
  - inversion E; subst. exact C.
  - destruct (step l s) as [s1 |] eqn:E1; [|discriminate].
    apply (IH s1); [eapply step_consistent; eassumption | exact E].
Qed.

Lemma closed_step l s s' :
  consistent s -> main s = MClosed -> step l s = Some s' ->
  main s' = MClosed /\ passes s' = passes s /\ uses s' = uses s.
Proof.
  unfold consistent. intros C M E.
  destruct s as [ck wn cn co g r m rq ps us]. simpl in *. subst m.
  destruct C as (_ & Hc & _ & Hr).
  destruct l; simpl in E; try discriminate.
  - destruct (0 <=? d); inversion E; subst; simpl; auto.
  - unfold renderer_step in E; simpl in E.
    destruct r; try contradiction; subst cn; inversion E; subst; simpl; auto.
Qed.

Lemma closed_run ls s s' :
  consistent s -> main s = MClosed -> run ls s = Some s' ->
  passes s' = passes s /\ uses s' = uses s.
Proof.
  revert s. induction ls as [| l ls IH]; intros s C M E; simpl in E.
  - inversion E; subst. auto.
  - destruct (step l s) as [s1 |] eqn:E1; [|discriminate].
    destruct (closed_step l s s1 C M E1) as (M1 & P1 & U1).
    destruct (IH s1 (step_consistent l s s1 C E1) M1 E) as [P U].
    split; congruence.
Qed.

(** C6, as stated, fails: [Close] closes the connection before it
    waits.  In this schedule a pass is about to call [RenderImage] when
    [Close] cancels and closes the connection; the renderer has not
    exited when the connection is closed, and the pass then sends its
    requests on the closed connection, before [Close] returns. *)
Lemma connection_closed_before_renderer_exits :
  option_map (fun s => (connOpen s, renderer s, main s))
    (run [Request; Renderer; Renderer; Tick (51 * ms); Renderer; Renderer;
          Renderer; Renderer; Cancel; ConnClose]
       (init (initial (Fin 1) 200 100)))
  = Some (false, RRender, MConnClosed) /\
  option_map (fun s => (main s, passes s, uses s))
    (run [Request; Renderer; Renderer; Tick (51 * ms); Renderer; Renderer;
          Renderer; Renderer; Cancel; ConnClose;
          Renderer; Renderer; Renderer; Renderer; Wait]
       (init (initial (Fin 1) 200 100)))
  = Some (MClosed, [51 * ms], [(51 * ms, false); (51 * ms, false)]).
Proof. split; reflexivity. Qed.

(** C6, amended.  [Close] cancels the renderer, closes the connection
    and then waits for the renderer loop: when [Close] has returned the
    renderer is cancelled, the connection is closed, no pass is in
    flight, and no pass starts or uses the connection any more. *)
Theorem close_leaves_no_pass w ls s :
  run ls (init w) = Some s -> main s = MClosed ->
  cancelled s = true /\ connOpen s = false /\
  match renderer s with
  | RStart | RSelect | RDone | RExit => True
  | _ => False
  end /\
  forall ls' s', run ls' s = Some s' ->
    passes s' = passes s /\ uses s' = uses s.
Proof.
  intros E M.
  pose proof (run_consistent ls (init w) s (init_consistent w) E) as C.
  pose proof C as C'. unfold consistent in C'. rewrite M in C'.
  destruct C' as (_ & Hc & Ho & Hr).
  repeat (split; [assumption|]).
  intros ls' s' E'. apply (closed_run ls' s s' C M E').
Qed.

Lemma close_leaves_no_pass_witness :
  cancelled (mkState (51 * ms) (clear_dirty (requestRedraw 0 (initial (Fin 1) 200 100)))
               true false 0 RExit MClosed [0]
               [51 * ms] [(51 * ms, false); (51 * ms, false)]) = true /\
  connOpen (mkState (51 * ms) (clear_dirty (requestRedraw 0 (initial (Fin 1) 200 100)))
               true false 0 RExit MClosed [0]
               [51 * ms] [(51 * ms, false); (51 * ms, false)]) = false /\
  match renderer (mkState (51 * ms) (clear_dirty (requestRedraw 0 (initial (Fin 1) 200 100)))
               true false 0 RExit MClosed [0]
               [51 * ms] [(51 * ms, false); (51 * ms, false)]) with
  | RStart | RSelect | RDone | RExit => True
  | _ => False
  end /\
  forall ls' s',
    run ls' (mkState (51 * ms) (clear_dirty (requestRedraw 0 (initial (Fin 1) 200 100)))
               true false 0 RExit MClosed [0]
               [51 * ms] [(51 * ms, false); (51 * ms, false)]) = Some s' ->
    passes s' = [51 * ms] /\ uses s' = [(51 * ms, false); (51 * ms, false)].
Proof.
  apply (close_leaves_no_pass (initial (Fin 1) 200 100)
           [Request; Renderer; Renderer; Tick (51 * ms); Renderer; Renderer;
            Renderer; Renderer; Cancel; ConnClose;
            Renderer; Renderer; Renderer; Renderer; Wait]);
    reflexivity.
Defined.

(** C2: the schedule on which the code departs from the claim.  The
    first request is made at 0.  The renderer reads [dirty] and the
    deadline of 50ms at 48ms and releases the lock; a second request
    arrives at 49ms, less than 50ms after the first, and moves the
    deadline to 99ms; the renderer compares the clock with the deadline
    it read, at 51ms, clears [dirty] and renders: the only pass fires at
    51ms, before the deadline of 99ms, 2ms after the last request. *)
Theorem pass_fires_before_the_deadline :
  option_map (fun s => (requests s, passes s, nextRedraw (win s), dirty (win s)))
    (run [Request; Renderer; Renderer; Tick (48 * ms); Renderer; Renderer;
          Tick (1 * ms); Request; Tick (2 * ms); Renderer; Renderer; Renderer]
       (init (initial (Fin 1) 200 100)))
  = Some ([49 * ms; 0], [51 * ms], 99 * ms, false) /\
  49 * ms - 0 < 50 * ms /\
  51 * ms < 49 * ms + 50 * ms.
Proof. split; [reflexivity | split; reflexivity]. Qed.

(** On every schedule a pass fires more than 50ms after some request
    made before it. *)
Lemma step_served l s s' : served s -> step l s = Some s' -> served s'.
Proof.
  unfold served. intros (J1 & J2 & J3) E.
  destruct s as [ck wn cn co g r m rq ps us]. simpl in *.
  destruct l; simpl in E.
  - destruct (0 <=? d) eqn:D; inversion E; subst; simpl. apply Z.leb_le in D.
    split; [exact J1|]. split; [|exact J3].
    destruct r as [| | | | [|] n | | | | |]; auto;
      destruct J2 as (q & Hq & Hlt); exists q; split; auto; lia.
  - destruct m; inversion E; subst; simpl.
    split; [intros _; exists ck; auto|].
    split.
    + destruct r as [| | | | [|] n | | | | |]; auto;
        destruct J2 as (q & Hq & Hlt); exists q; split; auto.
    + intros p Hp. destruct (J3 p Hp) as (q & Hq & Hlt). exists q. auto.
  - destruct m; inversion E; subst; simpl. auto.
  - destruct m; inversion E; subst; simpl. auto.
  - destruct m; try discriminate. destruct (g =? 0); inversion E; subst; simpl. auto.
  - unfold renderer_step in E. simpl in E.
    destruct r as [| | wk | | [|] n | | | | |]; simpl in E;
      repeat match type of E with
             | context [if ?c then _ else _] => destruct c eqn:?
             end;
      inversion E; subst; simpl; clear E;
      first [ discriminate
            | split; [first [exact J1 | intros; discriminate]|];
              split; [|first [exact J3 | idtac]] ]; auto.
    + destruct (dirty wn) eqn:Dw; auto.
    + destruct J2 as (q & Hq & Hn). exists q. split; [exact Hq|].
      apply Z.ltb_lt in Heqb. lia.
    + intros p [Hp | Hp]; [subst p; exact J2 | apply J3, Hp].
Qed.

(** X21.  On every schedule, also those on which a request slips
    between the two locked blocks of the renderer, each pass fires more
    than 50ms after a request that was made before it. *)
Lemma pass_follows_a_request opacity w h ls s :
  run ls (init (initial opacity w h)) = Some s ->
  forall p, In p (passes s) -> exists r, In r (requests s) /\ r + 50 * ms < p.
Proof.
  intros E.
  assert (G : forall ls s0 s1, served s0 -> run ls s0 = Some s1 -> served s1).
  { clear. induction ls as [| l ls IH]; intros s0 s1 J E; simpl in E.
    - inversion E; subst. exact J.
    - destruct (step l s0) as [s2 |] eqn:E2; [|discriminate].
      apply (IH s2); [eapply step_served; eassumption | exact E]. }
  assert (J0 : served (init (initial opacity w h))).
  { unfold served. simpl. repeat split; [discriminate | contradiction]. }
  apply (G ls _ s J0 E).
Qed.

End SchedTheorems.

(** ** The choice of the visual and the creation of the window *)

Section WindowTheorems.
Import Window.
Local Open Scope Z_scope.

Lemma match_visual_find visuals class :
  match_visual visuals class = find (fun v => Class v =? class) visuals.
Proof.
  induction visuals as [| v l IH]; simpl; [reflexivity|].
  destruct (Class v =? class); [reflexivity | exact IH].
Qed.

(** X1.  [MatchVisualInfo] returns the first visual of the wanted class
    among the visuals of the depth infos of the wanted depth, in the
    order of the lists, and [nil] when there is none. *)
Theorem MatchVisualInfo_is_first_match depthInfos depth class :
  MatchVisualInfo depthInfos depth class
  = find (fun v => Class v =? class)
      (flat_map Visuals (filter (fun d => Depth d =? depth) depthInfos)).
Proof.
  induction depthInfos as [| d l IH]; simpl; [reflexivity|].
  destruct (Depth d =? depth); simpl; [|exact IH].
  rewrite match_visual_find, IH.
  induction (Visuals d) as [| v vs IHv]; simpl; [reflexivity|].
  destruct (Class v =? class); [reflexivity | exact IHv].
Qed.

(** X2.  A visual that [MatchVisualInfo] returns has the wanted class and
    belongs to a depth info of the wanted depth; [nil] is returned
    exactly when no depth info of that depth has a visual of that
    class. *)
Theorem MatchVisualInfo_sound_complete depthInfos depth class :
  (forall v, MatchVisualInfo depthInfos depth class = Some v ->
     Class v = class /\
     exists d, In d depthInfos /\ Depth d = depth /\ In v (Visuals d)) /\
  (MatchVisualInfo depthInfos depth class = None <->
   forall d v, In d depthInfos -> Depth d = depth -> In v (Visuals d) ->
               Class v <> class).
Proof.
  rewrite MatchVisualInfo_is_first_match. split.
  - intros v H. apply find_some in H. destruct H as [Hin Hc].
    apply Z.eqb_eq in Hc. split; [exact Hc|].
    apply in_flat_map in Hin. destruct Hin as (d & Hd & Hv).
    apply filter_In in Hd. destruct Hd as [Hd He]. apply Z.eqb_eq in He.
    exists d. auto.
  - split.
    + intros H d v Hd He Hv Hc.
      assert (Hin : In v (flat_map Visuals (filter (fun d => Depth d =? depth) depthInfos))).
      { apply in_flat_map. exists d. split; [|exact Hv].
        apply filter_In. split; [exact Hd | apply Z.eqb_eq; exact He]. }
      pose proof (find_none _ _ H v Hin) as F. simpl in F.
      apply Z.eqb_neq in F. contradiction.
    + intros H.
      destruct (find _ _) as [v |] eqn:E; [|reflexivity]. exfalso.
      apply find_some in E. destruct E as [Hin Hc]. apply Z.eqb_eq in Hc.
      apply in_flat_map in Hin. destruct Hin as (d & Hd & Hv).
      apply filter_In in Hd. destruct Hd as [Hd He]. apply Z.eqb_eq in He.
      exact (H d v Hd He Hv Hc).
Qed.

Example MatchVisualInfo_skips_other_depths :
  MatchVisualInfo
    [mkDepth 24 [mkVisual 33 4]; mkDepth 32 [mkVisual 70 5; mkVisual 71 4];
     mkDepth 32 [mkVisual 72 4]] DepthWithAlpha ClassTrueColor
  = Some (mkVisual 71 4).
Proof. reflexivity. Qed.

Ltac answers w :=
  repeat match goal with
         | |- context [match w ?k with _ => _ end] =>
             let E := fresh "E" in destruct (w k) eqn:E; simpl
         | H : w ?k = _ |- context [w ?k] => rewrite H; simpl
         end.

(** X3.  When a visual is found, [CreateWindow] sends its requests in the
    order of the source up to the first checked request that fails and
    sends no request after it; it returns [nil] exactly when no checked
    request fails, and only then is the graphics context stored.  The
    unchecked [ChangeWindowAttributes] never stops it. *)
Theorem CreateWindow_stops_at_first_failure depths visual imageWidth imageHeight w :
  MatchVisualInfo depths DepthWithAlpha ClassTrueColor = Some visual ->
  map kind_of (sent (snd (CreateWindow depths imageWidth imageHeight w fresh)))
    = until_failure w order /\
  (fst (CreateWindow depths imageWidth imageHeight w fresh) = None <->
   forall k, In k checked -> w k = None) /\
  hasImageGc (snd (CreateWindow depths imageWidth imageHeight w fresh))
    = match fst (CreateWindow depths imageWidth imageHeight w fresh) with
      | None => true
      | Some _ => false
      end.
Proof.
  intros V. unfold CreateWindow, setClass, order, checked. rewrite V. simpl.
  answers w; (split; [reflexivity|]); (split; [|reflexivity]);
    (split; [intros H; try discriminate H; intros k Hk; simpl in Hk;
             repeat (destruct Hk as [<- | Hk]; [assumption|]); contradiction
            | intros H; try reflexivity; exfalso ]);
    repeat match goal with
           | E : w ?k = Some _ |- _ =>
               rewrite (H k) in E by (simpl; tauto); discriminate E
           end.
Qed.

Lemma CreateWindow_stops_at_first_failure_witness :
  map kind_of
    (sent (snd (CreateWindow [mkDepth 32 [mkVisual 71 4]] 200 100
                  (fun k => match k with
                            | KMapWindow => Some "BadWindow"%string
                            | _ => None
                            end) fresh)))
    = until_failure (fun k => match k with
                              | KMapWindow => Some "BadWindow"%string
                              | _ => None
                              end) order /\
  (fst (CreateWindow [mkDepth 32 [mkVisual 71 4]] 200 100
          (fun k => match k with
                    | KMapWindow => Some "BadWindow"%string
                    | _ => None
                    end) fresh) = None <->
   forall k, In k checked ->
     (fun k => match k with
               | KMapWindow => Some "BadWindow"%string
               | _ => None
               end) k = None) /\
  hasImageGc (snd (CreateWindow [mkDepth 32 [mkVisual 71 4]] 200 100
                     (fun k => match k with
                               | KMapWindow => Some "BadWindow"%string
                               | _ => None
                               end) fresh))
    = match fst (CreateWindow [mkDepth 32 [mkVisual 71 4]] 200 100
                   (fun k => match k with
                             | KMapWindow => Some "BadWindow"%string
                             | _ => None
                             end) fresh) with
      | None => true
      | Some _ => false
      end.
Proof.
  apply (CreateWindow_stops_at_first_failure
           [mkDepth 32 [mkVisual 71 4]] (mkVisual 71 4) 200 100).
  reflexivity.
Defined.

(** X4.  Without a 32-bit true-color visual [CreateWindow] fails before
    any request is sent and changes nothing. *)
Theorem CreateWindow_needs_a_visual depths imageWidth imageHeight w d :
  (forall dp v, In dp depths -> Depth dp = DepthWithAlpha -> In v (Visuals dp) ->
                Class v <> ClassTrueColor) ->
  CreateWindow depths imageWidth imageHeight w d
  = (Some "no visual with required parameters found"%string, d).
Proof.
  intros H. unfold CreateWindow.
  destruct (MatchVisualInfo_sound_complete depths DepthWithAlpha ClassTrueColor)
    as [_ [_ N]].
  rewrite (N H). reflexivity.
Qed.

Lemma CreateWindow_needs_a_visual_witness :
  CreateWindow [mkDepth 24 [mkVisual 33 4]; mkDepth 32 [mkVisual 70 5]] 200 100
    (fun _ => None) fresh
  = (Some "no visual with required parameters found"%string, fresh).
Proof.
  apply CreateWindow_needs_a_visual.
  intros dp v [<- | [<- | []]] Hd Hv; simpl in *.
  - discriminate Hd.
  - destruct Hv as [<- | []]. simpl. discriminate.
Defined.

(** X5.  [CreateWindow] asks for a window of the sizes of the image
    reduced to 16 bits, and records the sizes of the image themselves as
    soon as the window is created, whatever fails later: the window the
    server creates has the recorded sizes exactly when both sizes of the
    image are below 65536. *)
Theorem CreateWindow_sizes depths visual imageWidth imageHeight w :
  MatchVisualInfo depths DepthWithAlpha ClassTrueColor = Some visual ->
  w KColormapId = None -> w KWindowId = None -> w KCreateColormap = None ->
  w KCreateWindow = None ->
  0 <= imageWidth -> 0 <= imageHeight ->
  sizes (snd (CreateWindow depths imageWidth imageHeight w fresh))
    = Some (imageWidth, imageHeight) /\
  In (CreateWindowChecked (uint16 imageWidth) (uint16 imageHeight) (VisualId visual))
     (sent (snd (CreateWindow depths imageWidth imageHeight w fresh))) /\
  ((uint16 imageWidth = imageWidth /\ uint16 imageHeight = imageHeight) <->
   (imageWidth < 65536 /\ imageHeight < 65536)).
Proof.
  intros V E1 E2 E3 E4 HW HH.
  unfold CreateWindow, setClass. rewrite V, E1, E2, E3, E4. simpl.
  split; [answers w; reflexivity|].
  split; [answers w; simpl; tauto|].
  unfold uint16. split.
  - intros [A B].
    pose proof (Z.mod_pos_bound imageWidth 65536 ltac:(lia)).
    pose proof (Z.mod_pos_bound imageHeight 65536 ltac:(lia)). lia.
  - intros [A B]. split; apply Z.mod_small; lia.
Qed.

Lemma CreateWindow_sizes_witness :
  sizes (snd (CreateWindow [mkDepth 32 [mkVisual 71 4]] 65536 100
                (fun _ => None) fresh))
    = Some (65536, 100) /\
  In (CreateWindowChecked (uint16 65536) (uint16 100) (VisualId (mkVisual 71 4)))
     (sent (snd (CreateWindow [mkDepth 32 [mkVisual 71 4]] 65536 100
                   (fun _ => None) fresh))) /\
  ((uint16 65536 = 65536 /\ uint16 100 = 100) <-> (65536 < 65536 /\ 100 < 65536)).
Proof.
  apply (CreateWindow_sizes [mkDepth 32 [mkVisual 71 4]] (mkVisual 71 4) 65536 100
           (fun _ => None)); try reflexivity; lia.
Defined.

End WindowTheorems.

(** ** More on the event handler *)

Section MoreEventTheorems.
Import Events More.
Local Open Scope Z_scope.

Lemma handle_goes_on now ev d :
  returns ev = false -> exists d', handle now ev d = inl d'.
Proof.
  intros H. destruct ev; simpl in *; try discriminate; eauto.
  destruct (negb (windowWidth d =? Width) || negb (windowHeight d =? Height)); eauto.
Qed.

(** X6.  [HandleEvents] returns at the first [DestroyNotify] or missing
    event, with [nil] for the former and the error for the latter; the
    events before it are all handled, those after it are never looked
    at. *)
Theorem HandleEvents_returns_at_first evs1 t ev evs2 d :
  (forall e, In e evs1 -> returns (snd e) = false) ->
  returns ev = true ->
  snd (HandleEvents evs1 d) = None /\
  HandleEvents (evs1 ++ (t, ev) :: evs2) d
  = (fst (HandleEvents evs1 d),
     Some match ev with
          | DestroyNotifyEvent => None
          | _ => Some "got no event but err is nil, exiting"%string
          end).
Proof.
  revert d. induction evs1 as [| [now e] rest IH]; intros d H R.
  - simpl. split; [reflexivity|]. destruct ev; simpl in *; try discriminate; reflexivity.
  - assert (He : returns e = false) by (apply (H (now, e)); left; reflexivity).
    destruct (handle_goes_on now e d He) as [d' E]. simpl. rewrite E.
    apply IH; [|exact R]. intros e' Hin. apply H. right. exact Hin.
Qed.

Lemma HandleEvents_returns_at_first_witness :
  snd (HandleEvents [(0, ButtonPressEvent 100)] (initial (Fin 1) 400 100)) = None /\
  HandleEvents ([(0, ButtonPressEvent 100)] ++ (1, Nothing) :: [(2, ButtonPressEvent 7)])
    (initial (Fin 1) 400 100)
  = (fst (HandleEvents [(0, ButtonPressEvent 100)] (initial (Fin 1) 400 100)),
     Some (Some "got no event but err is nil, exiting"%string)).
Proof.
  apply (HandleEvents_returns_at_first [(0, ButtonPressEvent 100)] 1 Nothing).
  - intros e [<- | []]. reflexivity.
  - reflexivity.
Defined.

(** X7.  An X error and an event of another kind change nothing:
    [HandleEvents] behaves on a sequence of events as on the sequence
    without them. *)
Theorem HandleEvents_skips_unmatched evs d :
  HandleEvents (filter (fun e => negb (unmatched (snd e))) evs) d
  = HandleEvents evs d.
Proof.
  revert d. induction evs as [| [now ev] rest IH]; intros d; [reflexivity|].
  destruct ev as [w h | ex | | | |]; cbn [filter unmatched snd negb].
  - cbn [HandleEvents]. destruct (handle now (ConfigureNotifyEvent w h) d);
      [apply IH | reflexivity].
  - cbn [HandleEvents]. destruct (handle now (ButtonPressEvent ex) d);
      [apply IH | reflexivity].
  - reflexivity.
  - simpl. apply IH.
  - simpl. apply IH.
  - reflexivity.
Qed.

(** X8.  As long as [HandleEvents] has not returned, the recorded sizes
    of the window are those of the last resize notification, and the
    initial ones when there was none. *)
Theorem HandleEvents_records_last_size evs d :
  (forall e, In e evs -> returns (snd e) = false) ->
  (windowWidth (fst (HandleEvents evs d)), windowHeight (fst (HandleEvents evs d)))
  = last_size evs (windowWidth d, windowHeight d).
Proof.
  revert d. induction evs as [| [now ev] rest IH]; intros d H; [reflexivity|].
  assert (Hr : forall e, In e rest -> returns (snd e) = false)
    by (intros e Hin; apply H; right; exact Hin).
  assert (He : returns ev = false) by (apply (H (now, ev)); left; reflexivity).
  destruct ev as [w h | ex | | | |]; simpl in He; try discriminate; simpl.
  - destruct (negb (windowWidth d =? w) || negb (windowHeight d =? h)) eqn:C.
    + rewrite IH by exact Hr. reflexivity.
    + rewrite IH by exact Hr. apply orb_false_elim in C. destruct C as [C1 C2].
      apply negb_false_iff in C1, C2. apply Z.eqb_eq in C1, C2. rewrite C1, C2.
      reflexivity.
  - rewrite IH by exact Hr. reflexivity.
  - apply IH, Hr.
  - apply IH, Hr.
Qed.

Lemma HandleEvents_records_last_size_witness :
  (windowWidth (fst (HandleEvents
                       [(0, ConfigureNotifyEvent 400 100); (1, ButtonPressEvent 10);
                        (2, ConfigureNotifyEvent 100 400)] (initial (Fin 1) 200 100))),
   windowHeight (fst (HandleEvents
                        [(0, ConfigureNotifyEvent 400 100); (1, ButtonPressEvent 10);
                         (2, ConfigureNotifyEvent 100 400)] (initial (Fin 1) 200 100))))
  = last_size [(0, ConfigureNotifyEvent 400 100); (1, ButtonPressEvent 10);
               (2, ConfigureNotifyEvent 100 400)]
      (windowWidth (initial (Fin 1) 200 100), windowHeight (initial (Fin 1) 200 100)).
Proof.
  apply HandleEvents_records_last_size.
  intros e [<- | [<- | [<- | []]]]; reflexivity.
Defined.

(** X9.  Resize notifications that report the sizes the window already
    has request no redraw: a sequence of such notifications, X errors and
    other events leaves the whole state as it was. *)
Theorem HandleEvents_ignores_same_size evs d :
  (forall e, In e evs ->
     snd e = ConfigureNotifyEvent (windowWidth d) (windowHeight d) \/
     unmatched (snd e) = true) ->
  HandleEvents evs d = (d, None).
Proof.
  induction evs as [| [now ev] rest IH]; intros H; [reflexivity|].
  assert (Hr : forall e, In e rest ->
            snd e = ConfigureNotifyEvent (windowWidth d) (windowHeight d) \/
            unmatched (snd e) = true)
    by (intros e Hin; apply H; right; exact Hin).
  destruct (H (now, ev) (or_introl eq_refl)) as [E | U];
    [simpl in E | simpl in U].
  - subst ev. simpl. rewrite !Z.eqb_refl. simpl. apply IH, Hr.
  - destruct ev; simpl in U; try discriminate; simpl; apply IH, Hr.
Qed.

Lemma HandleEvents_ignores_same_size_witness :
  HandleEvents [(0, ConfigureNotifyEvent 200 100); (1, XError);
                (2, ConfigureNotifyEvent 200 100)] (initial (Fin 1) 200 100)
  = (initial (Fin 1) 200 100, None).
Proof.
  apply HandleEvents_ignores_same_size.
  intros e [<- | [<- | [<- | []]]]; simpl; auto.
Defined.

(** X10.  The event handler never takes back a request: a redraw that is
    pending when the events arrive is still pending after them, and a
    button press always leaves one pending. *)
Theorem HandleEvents_keeps_dirty evs d :
  (dirty d = true -> dirty (fst (HandleEvents evs d)) = true) /\
  (forall evs1 t ex evs2,
     evs = evs1 ++ (t, ButtonPressEvent ex) :: evs2 ->
     (forall e, In e evs1 -> returns (snd e) = false) ->
     dirty (fst (HandleEvents evs d)) = true).
Proof.
  assert (K : forall evs d, dirty d = true -> dirty (fst (HandleEvents evs d)) = true).
  { clear. induction evs as [| [now ev] rest IH]; intros d Hd; [exact Hd|].
    simpl. destruct (handle now ev d) as [d' | r] eqn:E; [|exact Hd].
    apply IH. destruct ev; simpl in E; try discriminate;
      try (inversion E; subst; assumption); try (inversion E; reflexivity).
    destruct (negb (windowWidth d =? Width) || negb (windowHeight d =? Height));
      inversion E; subst; [reflexivity | exact Hd]. }
  split; [apply K|].
  intros evs1 t ex evs2 -> H. revert d.
  induction evs1 as [| [now e] rest IH]; intros d.
  - simpl. apply K. reflexivity.
  - assert (He : returns e = false) by (apply (H (now, e)); left; reflexivity).
    destruct (handle_goes_on now e d He) as [d' E]. simpl. rewrite E.
    apply IH. intros e' Hin. apply H. right. exact Hin.
Qed.

End MoreEventTheorems.

(** ** More on the opacity *)

Section MoreOpacityTheorems.
Import Events Render Cli.
Local Open Scope Q_scope.

(** Rounding keeps the order of two numbers below an integer of at most
    [2^53]. *)
Lemma round64_mono_bounded x y n :
  0 <= x -> x <= y -> y <= inject_Z n -> (n <= 2 ^ 53)%Z ->
  exists p q, round64 x = Fin p /\ round64 y = Fin q /\
              0 <= p /\ p <= q /\ q <= inject_Z n.
Proof.
  intros H0 Hxy Hy Hn.
  assert (Hy0 : 0 <= y) by lra.
  destruct (round64_le_int y n Hy0 Hn Hy) as (q & Eq & Q0 & Q1).
  apply Qle_lteq in H0. destruct H0 as [Hx | E].
  - assert (Hyp : 0 < y) by lra.
    assert (Bx : rnd x < pow2 1024).
    { eapply Qle_lt_trans; [apply (rnd_le_int x n Hx Hn); lra|].
      apply pow2_1024_big. lia. }
    assert (By : rnd y < pow2 1024).
    { eapply Qle_lt_trans; [apply (rnd_le_int y n Hyp Hn); lra|].
      apply pow2_1024_big. lia. }
    exists (Qred (rnd x)), (Qred (rnd y)).
    rewrite (round64_pos x Hx Bx), (round64_pos y Hyp By).
    split; [reflexivity|]. split; [reflexivity|]. rewrite !Qred_correct.
    split; [apply rnd_pos, Hx|]. split; [apply rnd_mono; assumption|].
    apply rnd_le_int; assumption.
  - exists 0, q. rewrite round64_zero by (symmetry; exact E).
    repeat split; try assumption. apply Qle_refl.
Qed.

Lemma to_uint8_floor q :
  0 <= q -> q <= 255 ->
  to_uint8 (Fin q) = Some (Qfloor q) /\ (0 <= Qfloor q <= 255)%Z.
Proof.
  intros H0 H1. pose proof (Qfloor_nonneg q H0) as F0.
  assert (F1 : (Qfloor q <= 255)%Z).
  { apply floor_le_int. change (inject_Z 255) with 255. lra. }
  unfold to_uint8. rewrite (Qtrunc_nonneg q H0).
  destruct (Z.leb_spec 0 (Qfloor q)); [|lia].
  destruct (Z.ltb_spec (Qfloor q) 256); [|lia].
  split; [reflexivity | lia].
Qed.

(** X11.  The alpha of the mask never decreases when the opacity
    increases within [[0,1]]. *)
Theorem mask_alpha_monotone p q :
  0 <= p -> p <= q -> q <= 1 ->
  exists a b, maskAlpha (Fin p) = Some a /\ maskAlpha (Fin q) = Some b /\
              (0 <= a)%Z /\ (a <= b)%Z /\ (b <= 255)%Z.
Proof.
  intros H0 Hpq H1. unfold maskAlpha, fullAlpha, fmul.
  destruct (round64_mono_bounded (255 * p) (255 * q) 255)
    as (x & y & Ex & Ey & X0 & Xy & Y1);
    [nra | nra | change (inject_Z 255) with 255; nra | lia |].
  change (inject_Z 255) with 255 in Y1.
  rewrite Ex, Ey.
  destruct (to_uint8_floor x) as [Ux Bx]; [lra | lra |].
  destruct (to_uint8_floor y) as [Uy By]; [lra | lra |].
  exists (Qfloor x), (Qfloor y). rewrite Ux, Uy.
  repeat split; try lia. apply Qfloor_resp_le, Xy.
Qed.

Lemma mask_alpha_monotone_witness :
  exists a b, maskAlpha (Fin (1 # 4)) = Some a /\ maskAlpha (Fin (1 # 2)) = Some b /\
              (0 <= a)%Z /\ (a <= b)%Z /\ (b <= 255)%Z.
Proof. apply (mask_alpha_monotone (1 # 4) (1 # 2)); discriminate. Defined.

Lemma self_quotient w :
  (1 <= w < 2 ^ 63)%Z -> fdiv (of_int w) (of_int w) = Fin 1.
Proof.
  intros Hw.
  destruct (of_int_mono w w ltac:(lia) ltac:(lia)) as (p & q & Ep & Eq & _ & _ & Q1).
  specialize (Q1 ltac:(lia)). rewrite Eq. unfold fdiv.
  rewrite is_zero_false by (intros Z0; lra).
  assert (E : q / q == 1) by (field; intros Z0; lra).
  rewrite (round64_comp _ _ E). vm_compute. reflexivity.
Qed.

Lemma zero_quotient w :
  (1 <= w < 2 ^ 63)%Z -> fdiv (of_int 0) (of_int w) = Fin 0.
Proof.
  intros Hw.
  destruct (of_int_mono w w ltac:(lia) ltac:(lia)) as (p & q & Ep & Eq & _ & _ & Q1).
  specialize (Q1 ltac:(lia)). rewrite Eq. change (of_int 0) with (Fin 0).
  unfold fdiv. rewrite is_zero_false by (intros Z0; lra).
  apply round64_zero. unfold Qdiv. ring.
Qed.

(** X12.  In a window at least one pixel wide, a click at or beyond the
    right edge stores the opacity 1, for which the mask alpha is 255,
    and a click at or before the left edge stores the opacity 0, for
    which the mask alpha is 0. *)
Theorem click_at_the_edges now left right d :
  (1 <= windowWidth d < 2 ^ 63)%Z -> (left <= 0)%Z -> (windowWidth d <= right)%Z ->
  (exists d', handle now (ButtonPressEvent right) d = inl d' /\
              imageOpacity d' = Fin 1 /\ maskAlpha (imageOpacity d') = Some 255%Z) /\
  (exists d', handle now (ButtonPressEvent left) d = inl d' /\
              imageOpacity d' = Fin 0 /\ maskAlpha (imageOpacity d') = Some 0%Z).
Proof.
  intros Hw Hl Hr. split; eexists; (split; [reflexivity|]);
    cbn [imageOpacity requestRedraw]; unfold clampedX.
  - replace (Z.min (windowWidth d) (Z.max 0 right)) with (windowWidth d) by lia.
    rewrite (self_quotient _ Hw). split; [reflexivity | vm_compute; reflexivity].
  - replace (Z.min (windowWidth d) (Z.max 0 left)) with 0%Z by lia.
    rewrite (zero_quotient _ Hw). split; [reflexivity | vm_compute; reflexivity].
Qed.

Lemma click_at_the_edges_witness :
  (exists d', handle 0 (ButtonPressEvent 400) (initial (Fin (1 # 2)) 400 100) = inl d' /\
              imageOpacity d' = Fin 1 /\ maskAlpha (imageOpacity d') = Some 255%Z) /\
  (exists d', handle 0 (ButtonPressEvent (-3)) (initial (Fin (1 # 2)) 400 100) = inl d' /\
              imageOpacity d' = Fin 0 /\ maskAlpha (imageOpacity d') = Some 0%Z).
Proof.
  apply (click_at_the_edges 0 (-3) 400 (initial (Fin (1 # 2)) 400 100)); simpl; lia.
Defined.

(** The opacity a click stores is a number of [[0,1]] that does not
    decrease with the position of the pointer. *)
Lemma click_opacity_monotone w x1 x2 :
  (1 <= w < 2 ^ 63)%Z -> (0 <= x1 <= x2)%Z -> (x2 <= w)%Z ->
  exists p q, fdiv (of_int x1) (of_int w) = Fin p /\
              fdiv (of_int x2) (of_int w) = Fin q /\
              0 <= p /\ p <= q /\ q <= 1.
Proof.
  intros Hw Hx Hxw.
  destruct (of_int_mono x1 x2 Hx ltac:(lia)) as (a & b & Ea & Eb & A0 & Ab & _).
  destruct (of_int_mono x2 w ltac:(lia) ltac:(lia)) as (b' & c & Eb' & Ec & B0 & Bc & C1).
  specialize (C1 ltac:(lia)). rewrite Eb in Eb'. inversion Eb'; subst b'.
  rewrite Ea, Eb, Ec. unfold fdiv.
  rewrite is_zero_false by (intros Z0; lra).
  assert (C0 : 0 < c) by lra.
  destruct (round64_mono_bounded (a / c) (b / c) 1) as (p & q & Ep & Eq & P0 & Pq & Q1).
  - apply Qle_shift_div_l; [exact C0 | lra].
  - unfold Qdiv. apply Qmult_le_compat_r; [exact Ab|].
    apply Qlt_le_weak, Qinv_lt_0_compat, C0.
  - change (inject_Z 1) with 1. apply Qle_shift_div_r; [exact C0 | lra].
  - lia.
  - exists p, q. change (inject_Z 1) with 1 in Q1. repeat split; assumption.
Qed.

(** X13.  In a window at least one pixel wide, of two clicks the one
    further to the right never gives the smaller mask alpha. *)
Theorem clicks_to_the_right_are_more_opaque now1 now2 ex1 ex2 d :
  (1 <= windowWidth d < 2 ^ 63)%Z -> (ex1 <= ex2)%Z ->
  exists d1 d2 a b,
    handle now1 (ButtonPressEvent ex1) d = inl d1 /\
    handle now2 (ButtonPressEvent ex2) d = inl d2 /\
    maskAlpha (imageOpacity d1) = Some a /\
    maskAlpha (imageOpacity d2) = Some b /\ (a <= b)%Z.
Proof.
  intros Hw He.
  destruct (click_opacity_monotone (windowWidth d) (clampedX d ex1) (clampedX d ex2))
    as (p & q & Ep & Eq & P0 & Pq & Q1);
    [exact Hw | unfold clampedX; lia | unfold clampedX; lia |].
  destruct (mask_alpha_monotone p q P0 Pq Q1) as (a & b & Ma & Mb & _ & Hab & _).
  do 2 eexists. exists a, b.
  split; [reflexivity|]. split; [reflexivity|].
  cbn [imageOpacity requestRedraw]. rewrite Ep, Eq. auto.
Qed.

Lemma clicks_to_the_right_are_more_opaque_witness :
  exists d1 d2 a b,
    handle 0 (ButtonPressEvent 100) (initial (Fin 1) 400 100) = inl d1 /\
    handle 1 (ButtonPressEvent 300) (initial (Fin 1) 400 100) = inl d2 /\
    maskAlpha (imageOpacity d1) = Some a /\
    maskAlpha (imageOpacity d2) = Some b /\ (a <= b)%Z.
Proof.
  apply (clicks_to_the_right_are_more_opaque 0 1 100 300 (initial (Fin 1) 400 100));
    simpl; lia.
Defined.

(** X14.  The clamp of [run] brings every float that is a number, the
    infinities included, into [[0,1]], keeps the value of a number that
    is already there, and lets NaN through. *)
Theorem clampOpacity_range x :
  (x <> NaN -> unit_interval (clampOpacity x)) /\
  (forall q, x = Fin q -> 0 <= q -> q <= 1 ->
     exists q', clampOpacity x = Fin q' /\ q' == q) /\
  clampOpacity NaN = NaN.
Proof.
  split; [|split; [|reflexivity]].
  - intros H. destruct x as [| s | q]; [contradiction | |].
    + destruct s; simpl; split; discriminate.
    + unfold clampOpacity, fmax, fmin, fgt.
      destruct (Qle_bool 0 q) eqn:E0; simpl.
      * apply Qle_bool_iff in E0.
        destruct (Qle_bool 1 q) eqn:E1; simpl.
        -- split; discriminate.
        -- split; [exact E0|]. apply Qlt_le_weak, Qnot_le_lt. intros C.
           apply Qle_bool_iff in C. congruence.
      * split; discriminate.
  - intros q -> H0 H1. unfold clampOpacity, fmax, fmin, fgt.
    apply Qle_bool_iff in H0. rewrite H0. simpl.
    destruct (Qle_bool 1 q) eqn:E1; simpl.
    + apply Qle_bool_iff in E1. exists 1. split; [reflexivity|].
      apply Qle_antisym; assumption.
    + exists q. split; reflexivity.
Qed.

End MoreOpacityTheorems.

(** ** More on the frame and its transfer *)

Section MoreRenderTheorems.
Import Render Pack Transfer More.
Local Open Scope Z_scope.

(** X15.  The data handed to the shared memory segment holds four bytes
    for each pixel of the frame: [4 * width * height] bytes, and none when
    a side of the frame is not positive. *)
Theorem pack_image_length img w h :
  Z.of_nat (List.length (pack_image img w h)) = 4 * Z.max 0 w * Z.max 0 h.
Proof.
  rewrite pack_image_flat, packed_length, pixels_length. lia.
Qed.

(** X16.  The data are laid out row after row without padding: the four
    bytes of the pixel at column [x] of row [y] start at the offset
    [4 * (y * width + x)]. *)
Theorem pack_image_layout img w h x y :
  0 <= x < w -> 0 <= y < h ->
  firstn 4 (skipn (Z.to_nat (4 * (y * w + x))) (pack_image img w h))
  = pack_pixel (img x y).
Proof.
  intros Hx Hy. rewrite pack_image_flat.
  replace (Z.to_nat (4 * (y * w + x)))
    with (4 * (Z.to_nat y * Z.to_nat w + Z.to_nat x))%nat by nia.
  rewrite packed_skipn.
  destruct (skipn_nth _ _ _ (pixels_nth img w h x y Hx Hy)) as [rest E].
  rewrite E. cbn [flat_map]. unfold pack_pixel at 1.
  destruct (RGBA_method (img x y)) as [[[r g] b] a] eqn:M. simpl.
  unfold pack_pixel. rewrite M. reflexivity.
Qed.

Lemma pack_image_layout_witness :
  firstn 4 (skipn (Z.to_nat (4 * (1 * 3 + 2)))
              (pack_image (fun x y => mkRGBA (10 + x) (20 + y) 30 255) 3 2))
  = pack_pixel ((fun x y => mkRGBA (10 + x) (20 + y) 30 255) 2 1).
Proof.
  apply (pack_image_layout (fun x y => mkRGBA (10 + x) (20 + y) 30 255) 3 2 2 1); lia.
Defined.

(** X17.  For positive sizes the frame of a render pass never takes more
    bytes than the window has pixels times four: the segment that is
    requested holds [4 * fitW * fitH <= 4 * w * h] bytes. *)
Theorem frame_fits_the_window_area img srcW srcH w h :
  0 < srcW < 2 ^ 31 -> 0 < srcH < 2 ^ 31 -> 0 < w < 65536 -> 0 < h < 65536 ->
  exists r, fit srcW srcH w h = Some r /\
    Z.of_nat (List.length (pack_image img (width r) (height r)))
      = 4 * width r * height r /\
    4 * width r * height r <= 4 * w * h.
Proof.
  intros HsW HsH Hw Hh.
  destruct (fit_cases srcW srcH w h HsW HsH Hw Hh)
    as (qa & qn & _ & _ & [(_ & qp & _ & _ & E & F & _)
                          | (_ & qd & _ & _ & E & F & _)]);
    eexists; (split; [exact E|]); cbn [width height];
    rewrite pack_image_length; split; nia.
Qed.

Lemma frame_fits_the_window_area_witness :
  exists r, fit 200 100 400 100 = Some r /\
    Z.of_nat (List.length (pack_image (fun _ _ => mkRGBA 1 2 3 255) (width r) (height r)))
      = 4 * width r * height r /\
    4 * width r * height r <= 4 * 400 * 100.
Proof.
  apply (frame_fits_the_window_area (fun _ _ => mkRGBA 1 2 3 255) 200 100 400 100); lia.
Defined.

Lemma same_aspect_floats srcW srcH w h :
  0 < srcW < 2 ^ 31 -> 0 < srcH < 2 ^ 31 -> 0 < w < 65536 -> 0 < h < 65536 ->
  w * srcH = h * srcW -> newAspect w h = aspect srcW srcH.
Proof.
  intros HsW HsH Hw Hh E. unfold newAspect, aspect.
  destruct (of_int_exact w) as (pw & Ew & Vw); [lia|].
  destruct (of_int_exact h) as (ph & Eh & Vh); [lia|].
  destruct (of_int_exact srcW) as (sw & Esw & Vsw); [lia|].
  destruct (of_int_exact srcH) as (sh & Esh & Vsh); [lia|].
  rewrite Ew, Eh, Esw, Esh. unfold fdiv.
  rewrite !is_zero_false
    by (first [rewrite Vh | rewrite Vsh]; apply inject_nonzero; lia).
  apply round64_comp. rewrite Vw, Vh, Vsw, Vsh.
  assert (Q1 : (inject_Z w * inject_Z srcH == inject_Z h * inject_Z srcW)%Q).
  { rewrite <- !inject_Z_mult. rewrite E. reflexivity. }
  assert (Nh : ~ (inject_Z h == 0)%Q) by (apply inject_nonzero; lia).
  assert (Ns : ~ (inject_Z srcH == 0)%Q) by (apply inject_nonzero; lia).
  apply (Qmult_inj_r _ _ (inject_Z h * inject_Z srcH)%Q).
  - intros Z0. apply Qmult_integral in Z0. tauto.
  - transitivity (inject_Z w * inject_Z srcH)%Q; [field; exact Nh|].
    rewrite Q1. field. exact Ns.
Qed.

(** X18.  In a window that has the aspect of the image, in particular one
    of the sizes of the image as [CreateWindow] makes it, the frame
    starts at the origin and fills the width; its height is that of
    the window or one row less. *)
Theorem same_aspect_fills_the_window srcW srcH w h :
  0 < srcW < 2 ^ 31 -> 0 < srcH < 2 ^ 31 -> 0 < w < 65536 -> 0 < h < 65536 ->
  w * srcH = h * srcW ->
  exists r, fit srcW srcH w h = Some r /\
    width r = w /\ xOffset r = 0 /\ yOffset r = 0 /\
    (height r = h \/ height r = h - 1).
Proof.
  intros HsW HsH Hw Hh E.
  pose proof (same_aspect_floats srcW srcH w h HsW HsH Hw Hh E) as S.
  destruct (fit_cases srcW srcH w h HsW HsH Hw Hh)
    as (qa & qn & Ea & En & [(G & _) | (_ & qd & _ & _ & Ef & F & T1 & T2)]).
  - exfalso. rewrite Ea, En in S. inversion S; subst qn.
    unfold fgt in G. rewrite (proj2 (Qle_bool_iff qa qa) (Qle_refl qa)) in G.
    discriminate G.
  - eexists. split; [exact Ef|]. cbn [width height xOffset yOffset].
    assert (Y : (inject_Z w / (inject_Z srcW / inject_Z srcH) == inject_Z h)%Q).
    { assert (Q1 : (inject_Z w * inject_Z srcH == inject_Z h * inject_Z srcW)%Q).
      { rewrite <- !inject_Z_mult. rewrite E. reflexivity. }
      assert (Nw : ~ (inject_Z srcW == 0)%Q) by (apply inject_nonzero; lia).
      assert (Ns : ~ (inject_Z srcH == 0)%Q) by (apply inject_nonzero; lia).
      transitivity (inject_Z w * inject_Z srcH / inject_Z srcW)%Q;
        [field; split; assumption|].
      rewrite Q1. field. exact Nw. }
    rewrite Y in T1, T2.
    assert (Z1 : h - 1 <= Qfloor qd).
    { rewrite Zle_Qle. unfold Z.sub. rewrite inject_Z_plus, inject_Z_opp.
      change (inject_Z 1) with 1%Q. lra. }
    assert (Z2 : Qfloor qd <= h) by (rewrite Zle_Qle; exact T2).
    split; [reflexivity|]. split; [reflexivity|].
    split; [|lia].
    assert (C : Qfloor qd = h \/ Qfloor qd = h - 1) by lia.
    destruct C as [-> | ->].
    + rewrite Z.sub_diag. reflexivity.
    + replace (h - (h - 1)) with 1 by ring. reflexivity.
Qed.

Lemma same_aspect_fills_the_window_witness :
  exists r, fit 10 58 10 58 = Some r /\
    width r = 10 /\ xOffset r = 0 /\ yOffset r = 0 /\
    (height r = 58 \/ height r = 58 - 1).
Proof. apply (same_aspect_fills_the_window 10 58 10 58); lia. Defined.

(** Both heights occur in a window of the sizes of the image: a 200x100
    image is drawn whole, a 10x58 image loses a row. *)
Example native_size_frames :
  fit 200 100 200 100 = Some (mkRect 200 100 0 0) /\
  fit 10 58 10 58 = Some (mkRect 10 57 0 0) /\
  Machine.fit 10 58 10 58 = Some (mkRect 10 57 0 0).
Proof. vm_compute. repeat split. Qed.

Ltac cases_of w :=
  repeat match goal with
         | |- context [match w ?c with _ => _ end] =>
             let E := fresh "E" in destruct (w c) eqn:E; simpl
         | H : w ?c = _ |- context [w ?c] => rewrite H; simpl
         end.

(** X20.  The put-image request is sent exactly when the five calls
    before it succeeded, and every call of a transfer is made at most
    once. *)
Theorem put_image_needs_all_steps w :
  (In PutImageChecked (trace (snd (transfer w))) <->
   succeeds w SysvShmGet && succeeds w SysvShmAttach && succeeds w CopyBytes
   && succeeds w NewSegId && succeeds w AttachChecked = true) /\
  NoDup (trace (snd (transfer w))).
Proof.
  unfold transfer, unwind, run_deferred, do_call, start, succeeds. simpl.
  cases_of w;
    (split;
     [ split; [intros H; simpl in H; try reflexivity;
               repeat (destruct H as [H | H]; [discriminate H|]); contradiction
              | intros H; try discriminate H; simpl; tauto ]
     | repeat constructor; simpl; intuition discriminate ]).
Qed.

End MoreRenderTheorems.

(** ** More on the renderer loop *)

Section MoreSchedTheorems.
Import Events Sched More.
Local Open Scope Z_scope.

Lemma pass_follows_a_request_witness :
  exists r, In r (requests raced) /\ r + 50 * ms < 51 * ms.
Proof.
  apply (pass_follows_a_request (Fin 1) 200 100
           [Request; Renderer; Renderer; Tick (48 * ms); Renderer; Renderer;
            Tick (1 * ms); Request; Tick (2 * ms); Renderer; Renderer; Renderer]
           raced).
  - reflexivity.
  - left. reflexivity.
Defined.

Lemma run_invariant (P : state -> Prop) :
  (forall l s s', P s -> step l s = Some s' -> P s') ->
  forall ls s s', P s -> run ls s = Some s' -> P s'.
Proof.
  intros Hstep. induction ls as [| l ls IH]; intros s s' Hp E; simpl in E.
  - inversion E; subst. exact Hp.
  - destruct (step l s) as [s1 |] eqn:E1; [|discriminate].
    apply (IH s1); [eapply Hstep; eassumption | exact E].
Qed.

Lemma step_counted l s s' : counted s -> step l s = Some s' -> counted s'.
Proof.
  unfold counted, pending. intros [C D] E.
  destruct s as [ck wn cn co g r m rq ps us]. simpl in *.
  destruct l; simpl in E.
  - destruct (0 <=? d); inversion E; subst; simpl. auto.
  - destruct m; inversion E; subst; simpl. split.
    + destruct (dirty wn); destruct r; simpl in *; lia.
    + destruct r as [| | | | [|] n | | | | |]; auto.
  - destruct m; inversion E; subst; simpl. auto.
  - destruct m; inversion E; subst; simpl. auto.
  - destruct m; try discriminate. destruct (g =? 0); inversion E; subst; simpl. auto.
  - unfold renderer_step in E. simpl in E.
    destruct r as [| | wk | | [|] n | | | | |]; simpl in E;
      repeat match type of E with
             | context [if ?c then _ else _] => destruct c eqn:?
             end;
      inversion E; subst; simpl in *; clear E;
      try (split; [destruct (dirty wn); simpl in *; lia | auto]; fail).
    split; [exact C | destruct (dirty wn) eqn:Dw; auto].
Qed.

(** X22.  The renderer never renders more often than redraws were
    requested: on every schedule the passes, together with the redraw
    that is still pending, do not outnumber the calls of
    [requestRedraw]. *)
Theorem passes_never_outnumber_requests opacity w h ls s :
  run ls (init (initial opacity w h)) = Some s ->
  (List.length (passes s) + (if dirty (win s) then 1 else 0)
   <= List.length (requests s))%nat.
Proof.
  intros E.
  assert (C : counted s).
  { apply (run_invariant counted step_counted ls (init (initial opacity w h)) s);
      [|exact E]. unfold counted, pending. simpl. split; [lia | exact I]. }
  destruct C as [C _]. unfold pending in C. destruct (renderer s); lia.
Qed.

Lemma passes_never_outnumber_requests_witness :
  (List.length (passes raced) + (if dirty (win raced) then 1 else 0)
   <= List.length (requests raced))%nat.
Proof.
  apply (passes_never_outnumber_requests (Fin 1) 200 100
           [Request; Renderer; Renderer; Tick (48 * ms); Renderer; Renderer;
            Tick (1 * ms); Request; Tick (2 * ms); Renderer; Renderer; Renderer]).
  reflexivity.
Defined.

Lemma step_cancelled l s s' :
  cancelled s = true -> step l s = Some s' ->
  cancelled s' = true /\
  (List.length (passes s') + budget (renderer s')
   <= List.length (passes s) + budget (renderer s))%nat.
Proof.
  intros C E. destruct s as [ck wn cn co g r m rq ps us]. simpl in *. subst cn.
  destruct l; simpl in E.
  - destruct (0 <=? d); inversion E; subst; simpl. auto.
  - destruct m; inversion E; subst; simpl. auto.
  - destruct m; inversion E; subst; simpl. auto.
  - destruct m; inversion E; subst; simpl. auto.
  - destruct m; try discriminate. destruct (g =? 0); inversion E; subst; simpl. auto.
  - unfold renderer_step in E. simpl in E.
    destruct r as [| | wk | | [|] n | | | | |]; simpl in E;
      repeat match type of E with
             | context [if ?c then _ else _] => destruct c eqn:?
             end;
      inversion E; subst; simpl; split; auto; lia.
Qed.

(** X23.  Cancelling takes effect at the next turn of the loop: once
    [cancelRenderer] was called, the renderer starts at most one more
    pass, the one of the turn it is in. *)
Theorem at_most_one_pass_after_cancel ls s s' :
  cancelled s = true -> run ls s = Some s' ->
  (List.length (passes s') <= List.length (passes s) + 1)%nat.
Proof.
  intros C E.
  assert (G : forall ls s s', cancelled s = true -> run ls s = Some s' ->
            (List.length (passes s') + budget (renderer s')
             <= List.length (passes s) + budget (renderer s))%nat).
  { clear. induction ls as [| l ls IH]; intros s s' C E; simpl in E.
    - inversion E; subst. lia.
    - destruct (step l s) as [s1 |] eqn:E1; [|discriminate].
      destruct (step_cancelled l s s1 C E1) as [C1 B1].
      pose proof (IH s1 s' C1 E). lia. }
  pose proof (G ls s s' C E).
  assert (budget (renderer s) <= 1)%nat by (destruct (renderer s); simpl; lia).
  lia.
Qed.

Lemma at_most_one_pass_after_cancel_witness :
  exists s', run [Renderer; Renderer] cancelled_while_clearing = Some s' /\
    (List.length (passes s') <= List.length (passes cancelled_while_clearing) + 1)%nat.
Proof.
  eexists. split; [reflexivity|].
  apply (at_most_one_pass_after_cancel [Renderer; Renderer] cancelled_while_clearing);
    reflexivity.
Defined.

(** X24.  A redraw that is pending is rendered at the next poll once its
    deadline has passed: from the [select], when the renderer is not
    cancelled and nothing else happens during the 5ms of sleep, the
    loop clears the flag and calls [RenderImage] when it wakes up. *)
Theorem due_redraw_is_rendered s :
  renderer s = RSelect -> cancelled s = false ->
  dirty (win s) = true -> nextRedraw (win s) < clock s + 5 * ms ->
  exists s',
    run [Renderer; Tick (5 * ms); Renderer; Renderer; Renderer; Renderer; Renderer] s
      = Some s' /\
    passes s' = (clock s + 5 * ms) :: passes s /\
    dirty (win s') = false /\ requests s' = requests s.
Proof.
  intros R C D N. destruct s as [ck wn cn co g r m rq ps us].
  unfold ms in *. simpl in *.
  subst r cn. unfold run, step, renderer_step. simpl.
  rewrite Z.leb_refl. simpl. rewrite D. simpl.
  destruct (nextRedraw wn <? ck + 5000000) eqn:L;
    [|apply Z.ltb_ge in L; lia].
  simpl. eexists. split; [reflexivity|]. simpl. auto.
Qed.

Lemma due_redraw_is_rendered_witness :
  exists s',
    run [Renderer; Tick (5 * ms); Renderer; Renderer; Renderer; Renderer; Renderer]
      (polling RSelect) = Some s' /\
    passes s' = (clock (polling RSelect) + 5 * ms) :: passes (polling RSelect) /\
    dirty (win s') = false /\ requests s' = requests (polling RSelect).
Proof. apply (due_redraw_is_rendered (polling RSelect)); reflexivity. Defined.

(** X25.  A redraw whose deadline has not passed is not rendered: a
    poll that finds the clock at or before the deadline goes back to the
    [select] and leaves the flag set. *)
Theorem early_poll_does_not_render s :
  renderer s = RRead -> clock s <= nextRedraw (win s) ->
  exists s',
    run [Renderer; Renderer] s = Some s' /\
    renderer s' = RSelect /\ passes s' = passes s /\ win s' = win s.
Proof.
  intros R N. destruct s as [ck wn cn co g r m rq ps us]. simpl in *. subst r.
  unfold run, step, renderer_step. simpl.
  destruct (nextRedraw wn <? ck) eqn:L; [apply Z.ltb_lt in L; lia|].
  rewrite andb_false_r. simpl. eexists. split; [reflexivity|]. simpl. auto.
Qed.

Lemma early_poll_does_not_render_witness :
  exists s',
    run [Renderer; Renderer] (polling RRead) = Some s' /\
    renderer s' = RSelect /\ passes s' = passes (polling RRead) /\
    win s' = win (polling RRead).
Proof.
  apply (early_poll_does_not_render (polling RRead));
    [reflexivity | vm_compute; discriminate].
Defined.

End MoreSchedTheorems.

(** ** The life of the display *)

Section LifecycleTheorems.
Import Process Lifecycle.

Ltac stages w :=
  destruct (args_error w), (read_error w), (decode_error w), (conn_error w),
           (shm_error w), (window_error w); simpl.

(** X26.  [run] closes the display exactly when it started the renderer,
    and then [Close] is its last action, whether the window could be
    created or not and however the event loop ended; when the shared
    memory extension cannot be initialised the connection that was
    opened is never closed. *)
Theorem close_pairs_with_the_renderer w :
  (In Close (actions w) <-> In StartRenderer (actions w)) /\
  (In Close (actions w) -> exists l, actions w = l ++ [Close] /\ ~ In Close l) /\
  (args_error w = None -> read_error w = None -> decode_error w = None ->
   conn_error w = None -> shm_error w <> None ->
   In NewConn (actions w) /\ ~ In Close (actions w)).
Proof.
  unfold actions, new_image_window, with_display.
  split; [|split].
  - stages w; split; intros H; simpl in H; intuition discriminate.
  - stages w; intros H; simpl in H; try (intuition discriminate; fail);
      [ exists [ReadInput; Decode; NewConn; ShmInit; StartRenderer; CreateWindow]
      | exists [ReadInput; Decode; NewConn; ShmInit; StartRenderer; CreateWindow;
                RequestRedraw; HandleEvents] ];
      (split; [reflexivity | simpl; intuition discriminate]).
  - intros E1 E2 E3 E4 E5. rewrite E1, E2, E3, E4. simpl.
    destruct (shm_error w); [|contradiction]. simpl.
    split; [tauto | intuition discriminate].
Qed.


End LifecycleTheorems.

Section DeadlineTheorems.
Import Events More.
Local Open Scope Z_scope.

(** X28.  The deadline follows the last click: after a button press
    handled at time [t], whatever was pending before, a redraw is pending
    with its deadline at [t + 50ms], and the window keeps the sizes it
    had before the click. *)
Theorem deadline_follows_last_click evs t ex d :
  (forall e, In e evs -> returns (snd e) = false) ->
  dirty (fst (HandleEvents (evs ++ [(t, ButtonPressEvent ex)]) d)) = true /\
  nextRedraw (fst (HandleEvents (evs ++ [(t, ButtonPressEvent ex)]) d)) = t + 50 * ms /\
  windowWidth (fst (HandleEvents (evs ++ [(t, ButtonPressEvent ex)]) d))
    = windowWidth (fst (HandleEvents evs d)).
Proof.
  revert d. induction evs as [| [now e] rest IH]; intros d H.
  - simpl. auto.
  - assert (He : returns e = false) by (apply (H (now, e)); left; reflexivity).
    destruct (handle_goes_on now e d He) as [d' E]. simpl. rewrite E.
    apply IH. intros e' Hin. apply H. right. exact Hin.
Qed.

Lemma deadline_follows_last_click_witness :
  dirty (fst (HandleEvents ([(0, ConfigureNotifyEvent 400 100)] ++ [(7, ButtonPressEvent 100)])
                (initial (Fin 1) 200 100))) = true /\
  nextRedraw (fst (HandleEvents ([(0, ConfigureNotifyEvent 400 100)] ++ [(7, ButtonPressEvent 100)])
                     (initial (Fin 1) 200 100))) = 7 + 50 * ms /\
  windowWidth (fst (HandleEvents ([(0, ConfigureNotifyEvent 400 100)] ++ [(7, ButtonPressEvent 100)])
                      (initial (Fin 1) 200 100)))
    = windowWidth (fst (HandleEvents [(0, ConfigureNotifyEvent 400 100)]
                          (initial (Fin 1) 200 100))).
Proof.
  apply (deadline_follows_last_click [(0, ConfigureNotifyEvent 400 100)] 7 100).
  intros e [<- | []]. reflexivity.
Defined.

End DeadlineTheorems.
